(** * LoTW exporter: ADIF decoding and metric aggregation

    A shallow embedding of [internal/adif] (the record tokenizer [Parse] and
    the field decoder [parseRecord]) and of [internal/collector]
    ([Collector.fetch]) of the lotw-exporter, with the properties of the
    design specification stated and settled over it.

    Conventions of the embedding.
    - A Go [string] or [[]byte] is a [list ascii] (a sequence of bytes).
    - A Go [int] is a 64-bit two's complement integer, carried as a [Z];
      the one addition whose operand comes from the input ([dataStart +
      length] in [parseRecord]) has its wrap-around written out.  Lengths
      and indices of strings stay below [2^63] in Go and are not wrapped.
    - A slice expression out of range is a run-time panic: [slice] and
      [slice_from] return [Panic] there.
    - [strings.ToLower], [strings.ToUpper] and [strings.TrimSpace] are
      embedded byte by byte, which is what Go computes on ASCII strings.
      On strings with bytes above 127 Go maps Unicode code points instead
      (and may change the length of the string), which is outside this
      embedding: statements that depend on the positions found in a
      lower-cased string carry an [isASCII] hypothesis. *)

From Stdlib Require Import ZArith Ascii String List Lia.
From stdpp Require Import gmap strings list fin_maps fin_sets.

Local Open Scope Z_scope.

(** ** Results of Go computations *)

(** The errors [bufio.Scanner] can report. *)
Inductive error : Type :=
  | ErrTooLong
  | ErrNegativeAdvance
  | ErrAdvanceTooFar.

(** [Ok a]: normal return; [Fail e]: a non-nil [error] is returned;
    [Panic]: a run-time panic unwinds the call; [OutOfFuel]: the bound on
    the number of loop iterations given to the embedding was too small
    (shown below not to happen for the bounds used). *)
Inductive result (A : Type) : Type :=
  | Ok (a : A)
  | Fail (e : error)
  | Panic
  | OutOfFuel.
Arguments Ok {A} a.
Arguments Fail {A} e.
Arguments Panic {A}.
Arguments OutOfFuel {A}.

Definition bind {A B : Type} (r : result A) (k : A -> result B) : result B :=
  match r with
  | Ok a => k a
  | Fail e => Fail e
  | Panic => Panic
  | OutOfFuel => OutOfFuel
  end.

Notation "'let*' x ':=' r 'in' k" := (bind r (fun x => k))
  (at level 10, x name, r at level 100, k at level 200).

(** ** Strings: the parts of [strings] and [strconv] the code uses *)

Module GoStr.

(** A string literal as a Go string. *)
Definition lit (s : string) : list ascii := String.list_ascii_of_string s.

Definition len (s : list ascii) : Z := Z.of_nat (length s).

Definition minInt : Z := - 2 ^ 63.
Definition maxInt : Z := 2 ^ 63 - 1.

(** Two's complement wrap-around of a 64-bit [int]. *)
Definition wrap (z : Z) : Z := (z + 2 ^ 63) mod 2 ^ 64 - 2 ^ 63.

(** [s[lo:hi]]: panics unless [0 <= lo <= hi <= len(s)]. *)
Definition slice (s : list ascii) (lo hi : Z) : result (list ascii) :=
  if (0 <=? lo) && (lo <=? hi) && (hi <=? len s)
  then Ok (take (Z.to_nat (hi - lo)) (drop (Z.to_nat lo) s))
  else Panic.

(** [s[lo:]]. *)
Definition slice_from (s : list ascii) (lo : Z) : result (list ascii) :=
  slice s lo (len s).

Definition byte_eqb (a b : ascii) : bool := Ascii.eqb a b.

(** [strings.HasPrefix]. *)
Fixpoint HasPrefix (s p : list ascii) {struct p} : bool :=
  match p, s with
  | [], _ => true
  | _ :: _, [] => false
  | b :: p', a :: s' => byte_eqb a b && HasPrefix s' p'
  end.

(** Offset of the first occurrence of [sub] in [s], if any. *)
Fixpoint find (s sub : list ascii) : option nat :=
  if HasPrefix s sub then Some 0%nat
  else match s with
       | [] => None
       | _ :: s' => S <$> find s' sub
       end.

(** [strings.Index]: the index of the first occurrence, or [-1]. *)
Definition Index (s sub : list ascii) : Z :=
  match find s sub with
  | Some i => Z.of_nat i
  | None => -1
  end.

(** [strings.Split] for a separator of one byte (the source splits on
    [":"] and on ["|"] only): always at least one part. *)
Fixpoint Split (s : list ascii) (sep : ascii) : list (list ascii) :=
  match s with
  | [] => [[]]
  | c :: s' =>
      if byte_eqb c sep then [] :: Split s' sep
      else match Split s' sep with
           | p :: ps => (c :: p) :: ps
           | [] => [[c]]
           end
  end.

(** [parts[i]] for an index known to be in range at the call site. *)
Definition part (parts : list (list ascii)) (i : nat) : list ascii :=
  nth i parts [].

Definition isASCII (s : list ascii) : bool :=
  forallb (fun c => (nat_of_ascii c <? 128)%nat) s.

Definition upper_byte (c : ascii) : ascii :=
  let n := nat_of_ascii c in
  if ((97 <=? n) && (n <=? 122))%nat then ascii_of_nat (n - 32) else c.

Definition lower_byte (c : ascii) : ascii :=
  let n := nat_of_ascii c in
  if ((65 <=? n) && (n <=? 90))%nat then ascii_of_nat (n + 32) else c.

(** [strings.ToUpper], [strings.ToLower] on ASCII strings. *)
Definition ToUpper (s : list ascii) : list ascii := map upper_byte s.
Definition ToLower (s : list ascii) : list ascii := map lower_byte s.

(** The six ASCII white space bytes of [strings.TrimSpace]:
    tab, line feed, vertical tab, form feed, carriage return, space. *)
Definition is_space (c : ascii) : bool :=
  let n := nat_of_ascii c in
  ((9 <=? n) && (n <=? 13) || (n =? 32))%nat.

Fixpoint trim_left (s : list ascii) : list ascii :=
  match s with
  | c :: s' => if is_space c then trim_left s' else s
  | [] => []
  end.

(** [strings.TrimSpace] on ASCII strings. *)
Definition TrimSpace (s : list ascii) : list ascii :=
  rev (trim_left (rev (trim_left s))).

Definition digit (c : ascii) : option Z :=
  let n := nat_of_ascii c in
  if ((48 <=? n) && (n <=? 57))%nat then Some (Z.of_nat (n - 48)) else None.

Fixpoint digits (acc : Z) (s : list ascii) : option Z :=
  match s with
  | [] => Some acc
  | c :: s' =>
      match digit c with
      | Some d => digits (10 * acc + d) s'
      | None => None
      end
  end.

(** [strconv.Atoi]: an optional sign, then one or more decimal digits;
    [None] stands for a non-nil error (syntax, or value out of the range
    of [int]). *)
Definition Atoi (s : list ascii) : option Z :=
  let '(neg, ds) :=
    match s with
    | c :: r =>
        if byte_eqb c "+" then (false, r)
        else if byte_eqb c "-" then (true, r)
        else (false, s)
    | [] => (false, s)
    end in
  match ds with
  | [] => None
  | _ =>
      match digits 0 ds with
      | None => None
      | Some u =>
          let v := if neg then - u else u in
          if (minInt <=? v) && (v <=? maxInt) then Some v else None
      end
  end.

End GoStr.

(** ** Package [adif]: the field decoder *)

Module Adif.
Import GoStr.

(** [type Record map[string]string] *)
Abbreviation Record := (gmap (list ascii) (list ascii)).

(** What one pass through the body of the [for] loop of [parseRecord]
    does: leave the loop ([Break]), go round again on a shorter input
    after a tag without data ([Continue]), or store a field and go round
    again ([Store]). *)
Inductive step : Type :=
  | Break
  | Continue (input : list ascii)
  | Store (fieldName value input : list ascii).

(** The body of the loop of [parseRecord], on the current [input]. *)
Definition tagStep (input : list ascii) : result step :=
  let start := Index input (lit "<") in
  if start =? -1 then Ok Break else
  let* tl := slice_from input start in
  let end_ := Index tl (lit ">") in
  if end_ =? -1 then Ok Break else
  let end_ := end_ + start in
  let* tagContent := slice input (start + 1) end_ in
  let parts := Split tagContent ":" in
  let fieldName := ToUpper (part parts 0) in
  if Z.of_nat (length parts) <? 2 then
    let* input' := slice_from input (end_ + 1) in
    Ok (Continue input')
  else
    let lengthStr := part parts 1 in
    match Atoi lengthStr with
    | None =>
        let* input' := slice_from input (end_ + 1) in
        Ok (Continue input')
    | Some length =>
        let dataStart := end_ + 1 in
        let dataEnd := wrap (dataStart + length) in
        let dataEnd := if dataEnd >? len input then len input else dataEnd in
        let* value := slice input dataStart dataEnd in
        let* input' := slice_from input dataEnd in
        Ok (Store fieldName value input')
    end.

(** The [for] loop of [parseRecord], bounded by [fuel] iterations. *)
Fixpoint parseLoop (fuel : nat) (rec : Record) (input : list ascii)
  : result Record :=
  match fuel with
  | O => OutOfFuel
  | S fuel =>
      let* st := tagStep input in
      match st with
      | Break => Ok rec
      | Continue input' => parseLoop fuel rec input'
      | Store fieldName value input' =>
          parseLoop fuel (<[fieldName := value]> rec) input'
      end
  end.

(** The loop entered with the map [rec] and the text [input].  Every
    iteration but the last shortens [input], so [length input + 1]
    iterations are enough (lemma [parseLoop_fuel] below). *)
Definition parseFrom (rec : Record) (input : list ascii) : result Record :=
  parseLoop (S (length input)) rec input.

(** [func parseRecord(text string) (Record, error)]; the error returned
    by the source is always [nil]. *)
Definition parseRecord (text : list ascii) : result Record :=
  parseFrom ∅ text.

(** ** Package [adif]: the record tokenizer *)

(** What a [bufio.SplitFunc] returns: the number of bytes to advance and
    the token, [None] for a [nil] token (the error returned by the split
    function of [Parse] is always [nil]). *)
Definition SplitFunc : Type :=
  list ascii -> bool -> result (Z * option (list ascii)).

(** The function literal handed to [scanner.Split] in [Parse]. *)
Definition splitEOR : SplitFunc := fun data atEOF =>
  if atEOF && (len data =? 0) then Ok (0, None) else
  let s := data in
  let lowerS := ToLower s in
  let i := Index lowerS (lit "<eor>") in
  let idx := if i >=? 0 then i else -1 in
  if idx >=? 0 then
    let* token := slice data 0 idx in
    Ok (idx + 5, Some token)
  else if atEOF then Ok (len data, Some data)
  else Ok (0, None).

(** The state of a [bufio.Scanner] reading from a [strings.Reader]:
    [pending] is [s.buf[s.start:s.end]], the bytes read and not yet
    consumed; [unread] is what the reader still holds; [buflen] is
    [len(s.buf)]; [atEOF] says that the reader has reported [io.EOF].
    The bytes of a token leave [pending] when the token is returned; the
    library moves them out of the buffer a little later, which changes
    how many bytes one read brings and not what is delivered. *)
Record Scanner : Type := mkScanner {
  pending : list ascii;
  unread : list ascii;
  buflen : Z;
  maxTokenSize : Z;
  atEOF : bool
}.

(** [bufio.NewScanner(r)] followed by [scanner.Buffer(buf, max)] with
    [cap(buf) = size]. *)
Definition NewScanner (r : list ascii) (size max : Z) : Scanner :=
  mkScanner [] r size max false.

(** [r.Read(s.buf[s.end:len(s.buf)])] on a [strings.Reader]: [io.EOF] when
    nothing is left, else as many bytes as fit. *)
Definition readMore (s : Scanner) (buflen' : Z) : Scanner :=
  match unread s with
  | [] => mkScanner (pending s) [] buflen' (maxTokenSize s) true
  | _ =>
      let n := Z.to_nat (Z.min (buflen' - len (pending s)) (len (unread s))) in
      mkScanner (pending s ++ take n (unread s)) (drop n (unread s))
                buflen' (maxTokenSize s) false
  end.

(** The loop of the method [Scan] of [bufio.Scanner]: offer the pending bytes to the split
    function; return its token if it has one; stop at the end of the input;
    otherwise make room (doubling the buffer up to [maxTokenSize], or fail
    with [ErrTooLong] when it is full at that size) and read more.
    [Ok (s', Some token)]: [Scan] returns [true]; [Ok (s', None)]: it
    returns [false] and [Err()] is [nil]; [Fail e]: it returns [false] and
    [Err()] is [e]. *)
Fixpoint scanLoop (split : SplitFunc) (fuel : nat) (s : Scanner)
  : result (Scanner * option (list ascii)) :=
  match fuel with
  | O => OutOfFuel
  | S fuel =>
      let* r :=
        if negb (len (pending s) =? 0) || atEOF s then
          let* out := split (pending s) (atEOF s) in
          let advance := fst out in
          if advance <? 0 then Fail ErrNegativeAdvance
          else if advance >? len (pending s) then Fail ErrAdvanceTooFar
          else Ok (mkScanner (drop (Z.to_nat advance) (pending s)) (unread s)
                             (buflen s) (maxTokenSize s) (atEOF s), snd out)
        else Ok (s, None) in
      let s := fst r in
      match snd r with
      | Some token => Ok (s, Some token)
      | None =>
          if atEOF s then
            Ok (mkScanner [] (unread s) (buflen s) (maxTokenSize s) true, None)
          else if len (pending s) =? buflen s then
            if buflen s >=? maxTokenSize s then Fail ErrTooLong
            else
              let newSize := if buflen s =? 0 then 4096 else buflen s * 2 in
              let newSize := Z.min newSize (maxTokenSize s) in
              scanLoop split fuel (readMore s newSize)
          else scanLoop split fuel (readMore s (buflen s))
      end
  end.

(** [scanner.Scan()]: every iteration that does not return reads at least
    one byte or meets the end of the input. *)
Definition Scan (split : SplitFunc) (s : Scanner)
  : result (Scanner * option (list ascii)) :=
  scanLoop split (2 + length (unread s)) s.

(** The header test of [Parse]: everything up to and including the first
    end-of-header marker is dropped. *)
Definition stripHeader (text : list ascii) : result (list ascii) :=
  let idx := Index (ToLower text) (lit "<eoh>") in
  if idx >=? 0 then slice_from text (idx + 5) else Ok text.

(** The loop [for scanner.Scan() { body }] followed by the test of
    [scanner.Err()]: [Fail e] when the scanner stopped on the error [e]. *)
Fixpoint forScan {A : Type} (split : SplitFunc) (fuel : nat)
    (body : A -> list ascii -> result A) (scanner : Scanner) (acc : A)
  : result A :=
  match fuel with
  | O => OutOfFuel
  | S fuel =>
      let* r := Scan split scanner in
      match snd r with
      | None => Ok acc
      | Some token =>
          let* acc := body acc token in
          forScan split fuel body (fst r) acc
      end
  end.

(** The body of the loop of [Parse], on the records decoded so far and the
    text of the next token. *)
Definition recordOf (records : list Record) (token : list ascii)
  : result (list Record) :=
  let text := TrimSpace token in
  if len text =? 0 then Ok records else
  let* text := stripHeader text in
  let* rec := parseRecord text in
  if Z.of_nat (size rec) >? 0 then Ok (records ++ [rec]) else Ok records.

(** The record strings the tokenizer yields on the stream [r]: the loop
    of [Parse] with a body that only collects [scanner.Text()]. *)
Definition tokensOf (size max : Z) (r : list ascii)
  : result (list (list ascii)) :=
  forScan splitEOR (2 + length r) (fun acc token => Ok (acc ++ [token]))
    (NewScanner r size max) [].

(** [Parse] with the sizes of the buffer as parameters. *)
Definition ParseWith (size max : Z) (r : list ascii) : result (list Record) :=
  forScan splitEOR (2 + length r) recordOf (NewScanner r size max) [].

(** [func Parse(r io.Reader) ([]Record, error)] *)
Definition Parse (r : list ascii) : result (list Record) :=
  ParseWith (64 * 1024) (50 * 1024 * 1024) r.

End Adif.

(** ** Package [collector]: aggregation and publication *)

Module Exporter.
Import GoStr Adif.

(** The label values of a [prometheus.GaugeVec] with two labels. *)
Abbreviation labels := (list ascii * list ascii)%type.

(** The metrics held by a [Collector].  A gauge holds a [float64]; the
    counts stored here are integers (exact in a [float64] below [2^53]) and
    are carried as [Z], as are the duration of a cycle and the time of the
    last fetch.  A [GaugeVec] is the finite map from label values to the
    value of the child gauge. *)
Record Collector : Type := mkCollector {
  qsoTotal : gmap labels Z;
  qslTotal : gmap labels Z;
  dxccCount : Z;
  scrapeDuration : Z;
  scrapeSuccess : Z;
  lastFetch : Z;
  qsoHistory : gmap labels Z
}.

(** [NewCollector]: no child gauge yet, every gauge at zero. *)
Definition NewCollector : Collector := mkCollector ∅ ∅ 0 0 0 0 ∅.

(** [rec[key]]: the zero value [""] when the key is absent. *)
Definition field (rec : Record) (key : string) : list ascii :=
  default [] (rec !! lit key).

(** [vec.WithLabelValues(a, b).Inc()]: the child is created at zero when
    it does not exist. *)
Definition Inc (vec : gmap labels Z) (l : labels) : gmap labels Z :=
  <[l := default 0 (vec !! l) + 1]> vec.

(** The local state of the loop over the records in [fetch]: the two
    vectors being rebuilt and the two local maps. *)
Record aggregators : Type := mkAggregators {
  aggQso : gmap labels Z;
  aggQsl : gmap labels Z;
  dxccConfirmed : gset (list ascii);
  dateCounts : gmap (list ascii) Z
}.

(** The date [d] of a record, [""] when it has none. *)
Definition dateOf (rec : Record) : result (list ascii) :=
  let qsoDate :=
    let qsoDateRaw := field rec "QSO_DATE" in
    if len qsoDateRaw =? 8 then
      let* y := slice qsoDateRaw 0 4 in
      let* m := slice qsoDateRaw 4 6 in
      let* d := slice qsoDateRaw 6 8 in
      Ok (y ++ lit "-" ++ m ++ lit "-" ++ d)
    else Ok [] in
  match rec !! lit "APP_LOTW_QSO_TIMESTAMP" with
  | Some ts => if len ts >=? 10 then slice ts 0 10 else qsoDate
  | None => qsoDate
  end.

(** The body of [for _, rec := range records] in [fetch]. *)
Definition recordStep (a : aggregators) (rec : Record) : result aggregators :=
  let band := field rec "BAND" in
  let mode := field rec "MODE" in
  let qso := Inc (aggQso a) (band, mode) in
  let qslRcvd := ToUpper (field rec "QSL_RCVD") in
  let confirmed := bool_decide (qslRcvd = lit "Y") in
  let qsl := if confirmed then Inc (aggQsl a) (band, mode) else aggQsl a in
  let dxccs :=
    if confirmed then
      match rec !! lit "DXCC" with
      | Some dxcc =>
          if negb (len dxcc =? 0) then {[dxcc]} ∪ dxccConfirmed a
          else dxccConfirmed a
      | None => dxccConfirmed a
      end
    else dxccConfirmed a in
  let* d := dateOf rec in
  let dates :=
    if negb (len d =? 0) then
      let dKey := d ++ lit "|" ++ band in
      <[dKey := default 0 (dateCounts a !! dKey) + 1]> (dateCounts a)
    else dateCounts a in
  Ok (mkAggregators qso qsl dxccs dates).

Fixpoint recordLoop (a : aggregators) (records : list Record)
  : result aggregators :=
  match records with
  | [] => Ok a
  | rec :: records => let* a := recordStep a rec in recordLoop a records
  end.

(** The body of [for key, count := range dateCounts]. *)
Definition historyStep (key : list ascii) (count : Z) (h : gmap labels Z)
  : gmap labels Z :=
  let parts := Split key "|" in
  if Z.of_nat (length parts) =? 2 then <[(part parts 0, part parts 1) := count]> h
  else h.

(** The same loop with the order of iteration made explicit: Go leaves
    the order in which [range] goes through a map unspecified, so that the
    entries may come in any order [entries]. *)
Fixpoint historyLoop (entries : list (list ascii * Z)) (h : gmap labels Z)
  : gmap labels Z :=
  match entries with
  | [] => h
  | (key, count) :: entries => historyLoop entries (historyStep key count h)
  end.

(** [fetch] from the point where [adif.Parse] has returned [records]
    without error: the three vectors are reset and rebuilt. *)
Definition publish (c : Collector) (now : Z) (records : list Record)
  : result Collector :=
  let* a := recordLoop (mkAggregators ∅ ∅ ∅ ∅) records in
  Ok (mkCollector (aggQso a) (aggQsl a)
        (Z.of_nat (size (dxccConfirmed a)))
        (scrapeDuration c) 1 now
        (map_fold historyStep ∅ (dateCounts a))).

(** What [c.client.FetchReport] and [io.ReadAll] give in one cycle. *)
Inductive response : Type :=
  | FetchError
  | ReadError
  | Body (bodyBytes : list ascii).

Definition failed (c : Collector) : Collector :=
  mkCollector (qsoTotal c) (qslTotal c) (dxccCount c) (scrapeDuration c) 0
    (lastFetch c) (qsoHistory c).

(** [func (c *Collector) fetch()]: one cycle, given the time it took
    ([duration]), the time at its end ([now]) and the answer of LoTW. *)
Definition fetch (c : Collector) (duration now : Z) (r : response)
  : result Collector :=
  let c := mkCollector (qsoTotal c) (qslTotal c) (dxccCount c) duration
             (scrapeSuccess c) (lastFetch c) (qsoHistory c) in
  match r with
  | FetchError => Ok (failed c)
  | ReadError => Ok (failed c)
  | Body bodyBytes =>
      match Parse bodyBytes with
      | Fail _ => Ok (failed c)
      | Ok records => publish c now records
      | Panic => Panic
      | OutOfFuel => OutOfFuel
      end
  end.

(** What one cycle meets: the time the fetch took, the time at its end
    and the answer of LoTW. *)
Record cycle : Type := mkCycle {
  took : Z;
  clock : Z;
  answer : response
}.

(** [func (c *Collector) StartBackgroundFetch(interval)]: the goroutine
    calls [c.fetch()] at once and then once for every tick, one call after
    the other.  The collector after the cycles of a finite part of that
    run, the first of which is the immediate one. *)
Fixpoint StartBackgroundFetch (c : Collector) (cycles : list cycle)
  : result Collector :=
  match cycles with
  | [] => Ok c
  | cy :: cycles =>
      let* c := fetch c (took cy) (clock cy) (answer cy) in
      StartBackgroundFetch c cycles
  end.

End Exporter.

Import GoStr Adif Exporter.

(** * Vocabulary of the statements *)

Section Vocabulary.

(** The text of a tag with what surrounds it: [pre], then [<content>],
    then [rest]. *)
Definition tag (pre content rest : list ascii) : list ascii :=
  pre ++ "<"%char :: content ++ ">"%char :: rest.

(** A tag without data: fewer than two segments between the colons, or a
    second segment that [strconv.Atoi] rejects. *)
Definition nondata (content : list ascii) : Prop :=
  (length (Split content ":") < 2)%nat \/
  Atoi (part (Split content ":") 1) = None.

(** A text in which the decoder finds no further tag: no [<] at all, or
    a first [<] that is never closed. *)
Definition tagless (input : list ascii) : Prop :=
  ("<"%char ∉ input) \/
  exists pre tl, input = pre ++ "<"%char :: tl /\
                 ("<"%char ∉ pre) /\ (">"%char ∉ tl).

(** [fields input fs]: read from left to right, the text [input] is made
    of tags without data and of the valid tags [fs], given by their
    upper-cased names and their values, up to a part without tags.  The
    declared length [n] of a valid tag is not negative, and the position
    [n] bytes after its [>] is representable as an [int]. *)
Inductive fields : list ascii -> list (list ascii * list ascii) -> Prop :=
  | fields_end input :
      tagless input -> fields input []
  | fields_skip pre content rest fs :
      "<"%char ∉ pre -> ">"%char ∉ content ->
      nondata content ->
      fields rest fs ->
      fields (tag pre content rest) fs
  | fields_tag pre content rest n fs :
      "<"%char ∉ pre -> ">"%char ∉ content ->
      (2 <= length (Split content ":"))%nat ->
      Atoi (part (Split content ":") 1) = Some n ->
      0 <= n ->
      len pre + len content + 2 + n <= maxInt ->
      fields (drop (Z.to_nat n) rest) fs ->
      fields (tag pre content rest)
        ((ToUpper (part (Split content ":") 0), take (Z.to_nat n) rest) :: fs).

(** [rec[name] = value], for the fields of a list in turn. *)
Definition store (rec : Record) (fs : list (list ascii * list ascii)) : Record :=
  foldl (fun m f => <[f.1 := f.2]> m) rec fs.

(** The date bucket of a record, in the words of the specification: the
    first 10 characters of [APP_LOTW_QSO_TIMESTAMP] when that field has at
    least 10; otherwise [QSO_DATE], when it has exactly 8 characters
    [YYYYMMDD], as [YYYY-MM-DD]; otherwise none. *)
Definition qsoDateBucket (rec : Record) : option (list ascii) :=
  match rec !! lit "QSO_DATE" with
  | Some q =>
      if decide (length q = 8%nat)
      then Some (take 4 q ++ lit "-" ++ take 2 (drop 4 q) ++ lit "-" ++ drop 6 q)
      else None
  | None => None
  end.

Definition dateBucket (rec : Record) : option (list ascii) :=
  match rec !! lit "APP_LOTW_QSO_TIMESTAMP" with
  | Some ts =>
      if decide (10 <= length ts)%nat then Some (take 10 ts)
      else qsoDateBucket rec
  | None => qsoDateBucket rec
  end.

(** [inc key m]: the count under [key] goes up by one, from zero when the
    key is new. *)
Definition inc `{Countable K} (key : K) (m : gmap K Z) : gmap K Z :=
  <[key := default 0 (m !! key) + 1]> m.

(** A record is confirmed when its [QSL_RCVD] is [Y] in either case; it
    names the entity [d] when moreover its [DXCC] is [d] and not empty. *)
Definition isConfirmed (rec : Record) : Prop :=
  rec !! lit "QSL_RCVD" = Some (lit "Y") \/
  rec !! lit "QSL_RCVD" = Some (lit "y").


(** The entity a record adds to the set [dxccConfirmed] of [fetch], by
    the tests of the code. *)
Definition entity (rec : Record) : option (list ascii) :=
  if bool_decide (ToUpper (field rec "QSL_RCVD") = lit "Y") then
    match rec !! lit "DXCC" with
    | Some dxcc => if negb (len dxcc =? 0) then Some dxcc else None
    | None => None
    end
  else None.

(** The two markers, as the code writes them. *)
Definition eor : list ascii := lit "<eor>".
Definition eoh : list ascii := lit "<eoh>".

(** The marker [m] occurs in [s] at offset [j], in upper or lower case. *)
Definition occursAt (m s : list ascii) (j : nat) : Prop :=
  HasPrefix (ToLower (drop j s)) m = true.

(** The number of offsets of [l] at which [m] occurs. *)
Fixpoint occurrences (m l : list ascii) : nat :=
  match l with
  | [] => 0
  | _ :: l' => ((if HasPrefix l m then 1 else 0) + occurrences m l')%nat
  end.

(** The number of end-of-record markers of a stream, in either case. *)
Definition countMarkers (s : list ascii) : nat := occurrences eor (ToLower s).

(** Nothing follows the last end-of-record marker: the stream is empty
    or ends with a marker. *)
Definition terminated (s : list ascii) : Prop :=
  s = [] \/ exists p m, s = p ++ m /\ ToLower m = eor.

(** Every record fits in the buffer of the scanner together with its
    marker: any [max] consecutive bytes of the stream hold a whole marker. *)
Definition fits (max : Z) (s : list ascii) : Prop :=
  forall i, (i + Z.to_nat max <= length s)%nat ->
            (0 < countMarkers (take (Z.to_nat max) (drop i s)))%nat.

(** A well-formed stream for a scanner with buffers of at most [max]
    bytes: ASCII text in which every record is closed by a marker and
    fits in the buffer. *)
Definition wellFormed (max : Z) (s : list ascii) : Prop :=
  isASCII s = true /\ terminated s /\ fits max s.

(** What a scanner has still to deliver: the bytes it holds and the
    bytes it has not read. *)
Definition remaining (s : Scanner) : list ascii := pending s ++ unread s.

(** The pending bytes fit in the buffer, and nothing is left to read once
    the end of the input was seen. *)
Definition scannerInv (s : Scanner) : Prop :=
  len (pending s) <= buflen s /\ (atEOF s = true -> unread s = []).

(** The next record string of a stream and what follows it: the text
    before the first marker and the text after it; a last piece without
    marker is a record string when it is not empty. *)
Definition nextToken (r : list ascii) : option (list ascii) :=
  match find (ToLower r) eor with
  | Some i => Some (take i r)
  | None => match r with [] => None | _ => Some r end
  end.

Definition afterToken (r : list ascii) : list ascii :=
  match find (ToLower r) eor with
  | Some i => drop (i + 5) r
  | None => []
  end.

(** The body of a loop run over a list of tokens. *)
Fixpoint foldTokens {A : Type} (body : A -> list ascii -> result A) (acc : A)
    (tokens : list (list ascii)) : result A :=
  match tokens with
  | [] => Ok acc
  | token :: tokens =>
      let* acc := body acc token in foldTokens body acc tokens
  end.

(** [chops r tokens]: cut at its markers one after the other, the stream
    [r] falls into the record strings [tokens]. *)
Inductive chops : list ascii -> list (list ascii) -> Prop :=
  | chops_end r :
      nextToken r = None -> chops r []
  | chops_token r token tokens :
      nextToken r = Some token -> chops (afterToken r) tokens ->
      chops r (token :: tokens).

(** White space only, in the sense of [strings.TrimSpace]. *)
Definition allSpace (s : list ascii) : bool := forallb is_space s.

(** No byte of [s] is a lower-case letter [a] to [z]. *)
Definition noLower (s : list ascii) : Prop :=
  forall c, c ∈ s -> ~ (97 <= nat_of_ascii c <= 122)%nat.

(** [tally keys m]: the counts of [m] after one [inc] for each key of the
    list, and the number of times a key is in the list. *)
Definition tally `{Countable K} (keys : list K) (m : gmap K Z) : gmap K Z :=
  foldl (fun m k => inc k m) m keys.

Definition times `{EqDecision K} (k : K) (keys : list K) : Z :=
  Z.of_nat (length (filter (fun k' => k' = k) keys)).

(** The labels, and the key of the local date map, that a record counts
    under. *)
Definition bandMode (rec : Record) : list ascii * list ascii :=
  (field rec "BAND", field rec "MODE").

Definition dateKey (rec : Record) : option (list ascii) :=
  (fun d => d ++ lit "|" ++ field rec "BAND") <$> dateBucket rec.


(** A gauge vector holds a child only for labels that were counted. *)
Definition gaugeOf (n : Z) : option Z := if decide (n = 0) then None else Some n.

Global Instance isConfirmed_dec (rec : Record) : Decision (isConfirmed rec).
Proof. unfold isConfirmed. apply _. Defined.

(** A cycle fails at the fetch, at the reading of the body, or at the
    parse. *)
Definition cycleFails (r : response) : Prop :=
  match r with
  | FetchError | ReadError => True
  | Body bodyBytes => exists e, Parse bodyBytes = Fail e
  end.


(** The number of decimal digits a text starts with, and the length of
    its longest run of decimal digits. *)
Fixpoint leadingDigits (s : list ascii) : nat :=
  match s with
  | c :: s' => match digit c with
               | Some _ => S (leadingDigits s')
               | None => O
               end
  | [] => O
  end.

Fixpoint digitRun (s : list ascii) : nat :=
  match s with
  | [] => O
  | _ :: s' => Nat.max (leadingDigits s) (digitRun s')
  end.

(** A text that cannot declare a length the decoder mishandles: it has no
    minus sign and no number of more than 18 digits (and, as every Go
    string, a length far below the largest [int]). *)
Definition plain (s : list ascii) : Prop :=
  ("-"%char ∉ s) /\ (digitRun s <= 18)%nat /\ len s < 2 ^ 62.

End Vocabulary.

(** * Properties *)

(** ** Slices and searches *)

Section Strings.
Implicit Types s p sub pre rest : list ascii.

Lemma len_nonneg s : 0 <= len s.
Proof. unfold len. lia. Qed.

Lemma len_app s p : len (s ++ p) = len s + len p.
Proof. unfold len. rewrite length_app. lia. Qed.

Lemma slice_ok s lo hi :
  0 <= lo -> lo <= hi -> hi <= len s ->
  slice s lo hi = Ok (take (Z.to_nat (hi - lo)) (drop (Z.to_nat lo) s)).
Proof.
  intros H1 H2 H3. unfold slice.
  destruct (0 <=? lo) eqn:E1; [|lia].
  destruct (lo <=? hi) eqn:E2; [|lia].
  destruct (hi <=? len s) eqn:E3; [|lia].
  reflexivity.
Qed.

Lemma slice_panic s lo hi :
  lo < 0 \/ hi < lo \/ len s < hi -> slice s lo hi = Panic.
Proof.
  intros H. unfold slice.
  destruct (0 <=? lo) eqn:E1; [|reflexivity].
  destruct (lo <=? hi) eqn:E2; [|reflexivity].
  destruct (hi <=? len s) eqn:E3; [|reflexivity]. lia.
Qed.

Lemma slice_from_ok s lo :
  0 <= lo -> lo <= len s -> slice_from s lo = Ok (drop (Z.to_nat lo) s).
Proof.
  intros H1 H2. unfold slice_from. rewrite slice_ok by lia.
  f_equal. apply take_ge. rewrite length_drop. unfold len. lia.
Qed.

Lemma byte_eqb_eq (a b : ascii) : byte_eqb a b = true <-> a = b.
Proof. apply Ascii.eqb_eq. Qed.

Lemma byte_eqb_neq (a b : ascii) : byte_eqb a b = false <-> a <> b.
Proof. apply Ascii.eqb_neq. Qed.

Lemma HasPrefix_spec s p : HasPrefix s p = true <-> exists r, s = p ++ r.
Proof.
  revert s. induction p as [|b p IH]; intros s; simpl.
  - split; [intros _; by exists s | done].
  - destruct s as [|a s]; simpl.
    + split; [done | intros [r Hr]; discriminate].
    + rewrite andb_true_iff, byte_eqb_eq, IH. split.
      * intros [-> [r ->]]. by exists r.
      * intros [r Hr]. injection Hr as -> ->. split; [done | by exists r].
Qed.

Lemma HasPrefix_app s p rest :
  HasPrefix s p = true -> HasPrefix (s ++ rest) p = true.
Proof.
  rewrite !HasPrefix_spec. intros [r ->]. exists (r ++ rest).
  by rewrite app_assoc.
Qed.

(** A prefix test that fails on [s] with enough bytes in hand fails on
    every extension of [s]. *)
Lemma HasPrefix_app_false s p rest :
  (length p <= length s)%nat ->
  HasPrefix s p = false -> HasPrefix (s ++ rest) p = false.
Proof.
  revert s. induction p as [|b p IH]; intros s Hl; simpl; [done|].
  destruct s as [|a s]; simpl in *; [lia|].
  rewrite !andb_false_iff. intros [H|H]; [by left | right].
  apply IH; [lia | done].
Qed.

Lemma find_Some s sub i :
  find s sub = Some i ->
  (i <= length s)%nat /\ HasPrefix (drop i s) sub = true /\
  forall j, (j < i)%nat -> HasPrefix (drop j s) sub = false.
Proof.
  revert i. induction s as [|a s IH]; intros i; simpl.
  - destruct (HasPrefix [] sub) eqn:E; [|done].
    intros [= <-]. split; [simpl; lia|]. split; [done|]. intros j Hj; lia.
  - destruct (HasPrefix (a :: s) sub) eqn:E.
    + intros [= <-]. split; [simpl; lia|]. split; [done|]. intros j Hj; lia.
    + destruct (find s sub) as [k|] eqn:F; [|done].
      intros [= <-]. destruct (IH k eq_refl) as (H1 & H2 & H3).
      split; [simpl; lia|]. split; [done|].
      intros [|j] Hj; simpl; [done | apply H3; lia].
Qed.

Lemma find_None s sub j : find s sub = None -> HasPrefix (drop j s) sub = false.
Proof.
  revert j. induction s as [|a s IH]; intros j; simpl.
  - destruct (HasPrefix [] sub) eqn:E; [done|]. by rewrite drop_nil.
  - destruct (HasPrefix (a :: s) sub) eqn:E; [done|].
    destruct (find s sub) eqn:F; [done|]. intros _.
    destruct j as [|j]; simpl; [done | by apply IH].
Qed.

Lemma find_intro s sub i :
  HasPrefix (drop i s) sub = true ->
  (i <= length s)%nat ->
  (forall j, (j < i)%nat -> HasPrefix (drop j s) sub = false) ->
  find s sub = Some i.
Proof.
  intros H1 H2 H3. destruct (find s sub) as [k|] eqn:F.
  - apply find_Some in F as (K1 & K2 & K3). f_equal.
    destruct (Nat.lt_trichotomy k i) as [Hlt|[->|Hgt]]; [|done|].
    + rewrite H3 in K2 by done. done.
    + rewrite K3 in H1 by done. done.
  - by rewrite (find_None _ _ i F) in H1.
Qed.

Lemma find_byte pre (c : ascii) rest :
  c ∉ pre -> find (pre ++ c :: rest) [c] = Some (length pre).
Proof.
  intros Hc. apply find_intro.
  - rewrite drop_app_length. simpl.
    rewrite (proj2 (byte_eqb_eq c c) eq_refl). done.
  - rewrite length_app. simpl. lia.
  - intros j Hj. destruct (drop j (pre ++ c :: rest)) as [|a r] eqn:E; [done|].
    simpl. rewrite andb_true_r. apply byte_eqb_neq. intros ->.
    apply Hc. rewrite drop_app_le in E by lia.
    assert (Hin : c ∈ drop j pre ++ c :: rest) by (rewrite E; left).
    destruct (drop j pre) as [|x q] eqn:D.
    + apply (f_equal length) in D. rewrite length_drop in D. simpl in D. lia.
    + injection E as -> _. apply (subseteq_drop j pre). rewrite D. left.
Qed.

Lemma find_byte_None s (c : ascii) : c ∉ s -> find s [c] = None.
Proof.
  induction s as [|a s IH]; intros Hc; simpl; [done|].
  rewrite andb_true_r.
  destruct (byte_eqb a c) eqn:E.
  - apply byte_eqb_eq in E as ->. exfalso. apply Hc. left.
  - rewrite IH; [done|]. intros H. apply Hc. by right.
Qed.

End Strings.

(** ** The body of the loop of [parseRecord] *)

Section TagStep.
Implicit Types input pre content rest : list ascii.

Lemma Index_find s sub i : find s sub = Some i -> Index s sub = Z.of_nat i.
Proof. unfold Index. by intros ->. Qed.

Lemma Index_none s sub : find s sub = None -> Index s sub = -1.
Proof. unfold Index. by intros ->. Qed.

Lemma tagStep_no_open input : "<"%char ∉ input -> tagStep input = Ok Break.
Proof.
  intros H. unfold tagStep.
  change (lit "<") with ["<"%char]. by rewrite (Index_none _ _ (find_byte_None _ _ H)).
Qed.

Lemma tagStep_no_close pre rest :
  "<"%char ∉ pre -> ">"%char ∉ rest ->
  tagStep (pre ++ "<"%char :: rest) = Ok Break.
Proof.
  intros H1 H2. unfold tagStep.
  change (lit "<") with ["<"%char]. change (lit ">") with [">"%char].
  rewrite (Index_find _ _ _ (find_byte _ _ _ H1)).
  rewrite (proj2 (Z.eqb_neq _ _)) by lia.
  rewrite slice_from_ok by (unfold len; rewrite ?length_app; simpl; lia).
  rewrite Nat2Z.id, drop_app_length. simpl.
  rewrite Index_none; [done|]. apply find_byte_None.
  rewrite not_elem_of_cons. done.
Qed.

Lemma tagStep_tag pre content rest :
  "<"%char ∉ pre -> ">"%char ∉ content ->
  tagStep (tag pre content rest) =
    let parts := Split content ":" in
    if Z.of_nat (length parts) <? 2 then Ok (Continue rest)
    else match Atoi (part parts 1) with
         | None => Ok (Continue rest)
         | Some n =>
             let input := tag pre content rest in
             let dataStart := len pre + len content + 2 in
             let dataEnd := wrap (dataStart + n) in
             let dataEnd :=
               if dataEnd >? len input then len input else dataEnd in
             let* value := slice input dataStart dataEnd in
             let* input' := slice_from input dataEnd in
             Ok (Store (ToUpper (part parts 0)) value input')
         end.
Proof.
  intros H1 H2. unfold tagStep, tag.
  change (lit "<") with ["<"%char]. change (lit ">") with [">"%char].
  rewrite (Index_find _ _ _ (find_byte _ _ _ H1)).
  rewrite (proj2 (Z.eqb_neq _ _)) by lia.
  rewrite slice_from_ok by (unfold len; rewrite ?length_app; simpl; lia).
  rewrite Nat2Z.id, drop_app_length. simpl bind.
  assert (F : find ("<"%char :: content ++ ">"%char :: rest) [">"%char]
              = Some (S (length content))).
  { apply (find_byte ("<"%char :: content) ">"%char rest).
    rewrite not_elem_of_cons. done. }
  rewrite (Index_find _ _ _ F).
  rewrite (proj2 (Z.eqb_neq _ _)) by lia.
  assert (L : len (pre ++ "<"%char :: content ++ ">"%char :: rest)
              = len pre + len content + 2 + len rest).
  { unfold len. rewrite length_app. simpl. rewrite length_app. simpl. lia. }
  rewrite slice_ok by (pose proof (len_nonneg rest); unfold len in *; lia).
  replace (Z.to_nat (Z.of_nat (length pre) + 1)) with (length pre + 1)%nat by lia.
  replace (Z.to_nat (Z.of_nat (S (length content)) + Z.of_nat (length pre)
                     - (Z.of_nat (length pre) + 1))) with (length content) by lia.
  rewrite drop_app_add. simpl drop. rewrite drop_0.
  rewrite take_app_length. simpl bind.
  assert (R : slice_from (pre ++ "<"%char :: content ++ ">"%char :: rest)
                (Z.of_nat (S (length content)) + Z.of_nat (length pre) + 1)
              = Ok rest).
  { rewrite slice_from_ok by (pose proof (len_nonneg rest); unfold len in *; lia).
    f_equal.
    replace (Z.to_nat (Z.of_nat (S (length content)) + Z.of_nat (length pre) + 1))
      with (length pre + (1 + length content + 1))%nat by lia.
    rewrite drop_app_add. simpl drop.
    rewrite drop_app_add. done. }
  fold (tag pre content rest) in *.
  rewrite R. simpl bind. cbv zeta.
  replace (Z.of_nat (S (length content)) + Z.of_nat (length pre) + 1)
    with (len pre + len content + 2) by (unfold len; lia).
  reflexivity.
Qed.

End TagStep.

Section ParseLoop.
Implicit Types input pre content rest : list ascii.
Implicit Types rec : Record.

Lemma slice_inv s lo hi v :
  slice s lo hi = Ok v ->
  0 <= lo /\ lo <= hi /\ hi <= len s /\
  v = take (Z.to_nat (hi - lo)) (drop (Z.to_nat lo) s).
Proof.
  unfold slice.
  destruct (Z.leb_spec 0 lo); simpl; [|done].
  destruct (Z.leb_spec lo hi); simpl; [|done].
  destruct (Z.leb_spec hi (len s)); simpl; [|done].
  intros [= <-]. done.
Qed.

Lemma slice_cases s lo hi :
  (exists v, slice s lo hi = Ok v) \/ slice s lo hi = Panic.
Proof. unfold slice. destruct (_ && _); eauto. Qed.

Lemma Atoi_range s n : Atoi s = Some n -> minInt <= n <= maxInt.
Proof.
  unfold Atoi.
  destruct (match s with
            | [] => (false, s)
            | c :: r => if byte_eqb c "+" then (false, r)
                        else if byte_eqb c "-" then (true, r) else (false, s)
            end) as [neg ds].
  destruct ds as [|d ds]; [done|].
  destruct (digits 0 (d :: ds)) as [u|]; [|done].
  destruct (Z.leb_spec minInt (if neg then - u else u)); simpl; [|done].
  destruct (Z.leb_spec (if neg then - u else u) maxInt); simpl; [|done].
  intros [= <-]. lia.
Qed.

(** Every text is of one of three shapes: without [<]; with a first [<]
    that no [>] follows; or with a first tag. *)
Lemma input_shape input :
  "<"%char ∉ input \/
  (exists pre tl, input = pre ++ "<"%char :: tl /\
                  ("<"%char ∉ pre) /\ (">"%char ∉ tl)) \/
  (exists pre content rest, input = tag pre content rest /\
                  ("<"%char ∉ pre) /\ (">"%char ∉ content)).
Proof.
  destruct (decide ("<"%char ∈ input)) as [Hin|Hout]; [|by left].
  right. apply list_elem_of_split_l in Hin as (pre & tl & -> & Hpre).
  destruct (decide (">"%char ∈ tl)) as [Hin|Hout].
  - right. apply list_elem_of_split_l in Hin as (content & rest & -> & Hc).
    by exists pre, content, rest.
  - left. by exists pre, tl.
Qed.

(** The body of the loop never returns an error and never runs out of
    fuel; when it goes round again, it does so on a shorter text. *)
Lemma tagStep_cases input :
  tagStep input = Ok Break \/ tagStep input = Panic \/
  (exists input', tagStep input = Ok (Continue input') /\
                  (length input' < length input)%nat) \/
  (exists k v input', tagStep input = Ok (Store k v input') /\
                  (length input' < length input)%nat).
Proof.
  destruct (input_shape input) as [H|[(pre & tl & -> & H1 & H2)
                                   |(pre & content & rest & -> & H1 & H2)]].
  - left. by apply tagStep_no_open.
  - left. by apply tagStep_no_close.
  - rewrite tagStep_tag by done. cbv zeta.
    assert (Hshort : (length rest < length (tag pre content rest))%nat).
    { unfold tag. rewrite length_app. simpl. rewrite length_app. simpl. lia. }
    destruct (Z.of_nat (length (Split content ":")) <? 2).
    { right; right; left. by exists rest. }
    destruct (Atoi (part (Split content ":") 1)) as [n|].
    2:{ right; right; left. by exists rest. }
    set (dataEnd := if _ >? _ then _ else _).
    destruct (slice_cases (tag pre content rest)
                (len pre + len content + 2) dataEnd) as [[v Hv]|Hv];
      rewrite Hv; simpl bind; [|by right; left].
    apply slice_inv in Hv as (V1 & V2 & V3 & _).
    rewrite slice_from_ok by lia. simpl bind.
    right; right; right. eexists _, _, _. split; [done|].
    rewrite length_drop.
    pose proof (len_nonneg pre). pose proof (len_nonneg content).
    unfold len in *. lia.
Qed.

Lemma parseLoop_unfold fuel rec input :
  parseLoop (S fuel) rec input =
    let* st := tagStep input in
    match st with
    | Break => Ok rec
    | Continue input' => parseLoop fuel rec input'
    | Store fieldName value input' =>
        parseLoop fuel (<[fieldName := value]> rec) input'
    end.
Proof. reflexivity. Qed.

(** Any fuel above the length of the text gives the result of
    [parseFrom]: the loop is never cut short. *)
Lemma parseLoop_fuel fuel rec input :
  (length input < fuel)%nat -> parseLoop fuel rec input = parseFrom rec input.
Proof.
  unfold parseFrom.
  remember (length input) as n eqn:Hn.
  revert fuel rec input Hn.
  induction n as [n IH] using lt_wf_ind. intros fuel rec input -> Hf.
  destruct fuel as [|fuel]; [lia|].
  rewrite !parseLoop_unfold.
  destruct (tagStep_cases input)
    as [H|[H|[(i' & H & Hl)|(k & v & i' & H & Hl)]]]; rewrite H; simpl; try done.
  - rewrite (IH (length i') Hl fuel rec i' eq_refl) by lia.
    rewrite (IH (length i') Hl (length input) rec i' eq_refl) by lia. done.
  - rewrite (IH (length i') Hl fuel _ i' eq_refl) by lia.
    rewrite (IH (length i') Hl (length input) _ i' eq_refl) by lia. done.
Qed.

(** The loop, one iteration at a time. *)
Lemma parseFrom_unfold rec input :
  parseFrom rec input =
    let* st := tagStep input in
    match st with
    | Break => Ok rec
    | Continue input' => parseFrom rec input'
    | Store fieldName value input' =>
        parseFrom (<[fieldName := value]> rec) input'
    end.
Proof.
  unfold parseFrom at 1. rewrite parseLoop_unfold.
  destruct (tagStep_cases input)
    as [H|[H|[(i' & H & Hl)|(k & v & i' & H & Hl)]]]; rewrite H; simpl; try done.
  - by apply parseLoop_fuel.
  - by apply parseLoop_fuel.
Qed.

(** The decoder returns a mapping or panics: it never returns an error
    and the bound on its iterations is never reached. *)
Lemma parseFrom_total rec input :
  (exists rec', parseFrom rec input = Ok rec') \/ parseFrom rec input = Panic.
Proof.
  remember (length input) as n eqn:Hn. revert rec input Hn.
  induction n as [n IH] using lt_wf_ind. intros rec input ->.
  rewrite parseFrom_unfold.
  destruct (tagStep_cases input)
    as [H|[H|[(i' & H & Hl)|(k & v & i' & H & Hl)]]]; rewrite H; simpl; eauto.
Qed.

End ParseLoop.

(** ** The field decoder *)

Section Decoder.
Implicit Types input pre content rest : list ascii.
Implicit Types rec : Record.

Lemma wrap_id z : minInt <= z <= maxInt -> wrap z = z.
Proof.
  unfold wrap, minInt, maxInt. intros H.
  rewrite Z.mod_small by lia. lia.
Qed.

Lemma tagStep_nodata pre content rest :
  "<"%char ∉ pre -> ">"%char ∉ content -> nondata content ->
  tagStep (tag pre content rest) = Ok (Continue rest).
Proof.
  intros H1 H2 Hn. rewrite tagStep_tag by done. cbv zeta.
  destruct (Z.ltb_spec (Z.of_nat (length (Split content ":"))) 2); [done|].
  destruct Hn as [Hn|Hn]; [lia|]. by rewrite Hn.
Qed.

(** A tag with a declared length [n >= 0]: the value is the [n] bytes
    after [>], or all that is left when there are fewer. *)
Lemma tagStep_field pre content rest n :
  "<"%char ∉ pre -> ">"%char ∉ content ->
  (2 <= length (Split content ":"))%nat ->
  Atoi (part (Split content ":") 1) = Some n ->
  0 <= n ->
  len pre + len content + 2 + n <= maxInt ->
  tagStep (tag pre content rest) =
    Ok (Store (ToUpper (part (Split content ":") 0))
              (take (Z.to_nat n) rest) (drop (Z.to_nat n) rest)).
Proof.
  intros H1 H2 Hp Ha Hn Hmax. rewrite tagStep_tag by done. cbv zeta.
  destruct (Z.ltb_spec (Z.of_nat (length (Split content ":"))) 2); [lia|].
  rewrite Ha.
  pose proof (len_nonneg pre) as Lp. pose proof (len_nonneg content) as Lc.
  pose proof (len_nonneg rest) as Lr.
  rewrite wrap_id by (unfold minInt, maxInt in *; lia).
  assert (L : len (tag pre content rest) = len pre + len content + 2 + len rest).
  { unfold len, tag. rewrite length_app. simpl. rewrite length_app. simpl. lia. }
  assert (D : forall k, (k <= length rest)%nat ->
            drop (Z.to_nat (len pre + len content + 2 + Z.of_nat k))
                 (tag pre content rest) = drop k rest).
  { intros k Hk. unfold tag, len.
    replace (Z.to_nat (Z.of_nat (length pre) + Z.of_nat (length content) + 2
                       + Z.of_nat k))
      with (length pre + (1 + (length content + (1 + k))))%nat by lia.
    rewrite drop_app_add. simpl drop. rewrite drop_app_add. done. }
  pose proof (D 0%nat ltac:(lia)) as D0.
  change (Z.of_nat 0) with 0 in D0. rewrite Z.add_0_r, drop_0 in D0.
  destruct (Z.gtb_spec (len pre + len content + 2 + n) (len (tag pre content rest)))
    as [Hgt|Hle].
  - (* the declared length overruns the text *)
    rewrite slice_ok by lia. simpl bind.
    rewrite slice_from_ok by lia. simpl bind.
    rewrite (drop_ge (tag pre content rest)
               (Z.to_nat (len (tag pre content rest)))) by (unfold len; lia).
    rewrite D0.
    rewrite take_ge by (rewrite L; unfold len in *; lia).
    rewrite take_ge by (unfold len in *; lia).
    rewrite drop_ge by (unfold len in *; lia). done.
  - rewrite slice_ok by lia. simpl bind.
    rewrite slice_from_ok by lia. simpl bind.
    pose proof (D (Z.to_nat n) ltac:(unfold len in *; lia)) as Dn.
    rewrite Z2Nat.id in Dn by lia. rewrite D0, Dn.
    replace (Z.to_nat (len pre + len content + 2 + n
                       - (len pre + len content + 2))) with (Z.to_nat n) by lia.
    done.
Qed.

(** A tag with a negative declared length makes the decoder panic: the
    slice [input[dataStart:dataEnd]] has [dataEnd < dataStart]. *)
Lemma tagStep_negative pre content rest n :
  "<"%char ∉ pre -> ">"%char ∉ content ->
  (2 <= length (Split content ":"))%nat ->
  Atoi (part (Split content ":") 1) = Some n ->
  n < 0 ->
  len (tag pre content rest) <= maxInt ->
  tagStep (tag pre content rest) = Panic.
Proof.
  intros H1 H2 Hp Ha Hn Hmax. rewrite tagStep_tag by done. cbv zeta.
  destruct (Z.ltb_spec (Z.of_nat (length (Split content ":"))) 2); [lia|].
  rewrite Ha.
  pose proof (len_nonneg pre) as Lp. pose proof (len_nonneg content) as Lc.
  pose proof (len_nonneg rest) as Lr. pose proof (Atoi_range _ _ Ha) as Hr.
  assert (L : len (tag pre content rest) = len pre + len content + 2 + len rest).
  { unfold len, tag. rewrite length_app. simpl. rewrite length_app. simpl. lia. }
  rewrite wrap_id by (unfold minInt, maxInt in *; lia).
  destruct (Z.gtb_spec (len pre + len content + 2 + n) (len (tag pre content rest)));
    [lia|].
  rewrite slice_panic by lia. done.
Qed.

Lemma parseFrom_fields input fs rec :
  fields input fs -> parseFrom rec input = Ok (store rec fs).
Proof.
  intros H. revert rec.
  induction H as [input [H|(pre & tl & -> & H1 & H2)]
                 |pre content rest fs H1 H2 Hn _ IH
                 |pre content rest n fs H1 H2 Hp Ha Hn Hmax _ IH]; intros rec;
    rewrite parseFrom_unfold.
  - by rewrite tagStep_no_open.
  - by rewrite tagStep_no_close.
  - rewrite tagStep_nodata by done. simpl. apply IH.
  - rewrite (tagStep_field _ _ _ n) by done. simpl. apply IH.
Qed.

(** A declared length that carries [dataStart + length] past the largest
    [int] makes the decoder panic: the sum wraps around to a negative
    [dataEnd], which the test [dataEnd > len(input)] lets through. *)
Lemma tagStep_overflow pre content rest n :
  "<"%char ∉ pre -> ">"%char ∉ content ->
  (2 <= length (Split content ":"))%nat ->
  Atoi (part (Split content ":") 1) = Some n ->
  maxInt < len pre + len content + 2 + n ->
  len (tag pre content rest) <= maxInt ->
  tagStep (tag pre content rest) = Panic.
Proof.
  intros H1 H2 Hp Ha Hn Hmax. rewrite tagStep_tag by done. cbv zeta.
  destruct (Z.ltb_spec (Z.of_nat (length (Split content ":"))) 2); [lia|].
  rewrite Ha.
  pose proof (len_nonneg pre) as Lp. pose proof (len_nonneg content) as Lc.
  pose proof (len_nonneg rest) as Lr. pose proof (Atoi_range _ _ Ha) as Hr.
  assert (L : len (tag pre content rest) = len pre + len content + 2 + len rest).
  { unfold len, tag. rewrite length_app. simpl. rewrite length_app. simpl. lia. }
  assert (W : wrap (len pre + len content + 2 + n)
              = len pre + len content + 2 + n - 2 ^ 64).
  { unfold wrap, minInt, maxInt in *.
    replace (len pre + len content + 2 + n + 2 ^ 63)
      with ((len pre + len content + 2 + n - 2 ^ 63) + 1 * 2 ^ 64) by lia.
    rewrite Z.mod_add by lia. rewrite Z.mod_small by lia. lia. }
  rewrite W.
  destruct (Z.gtb_spec (len pre + len content + 2 + n - 2 ^ 64)
              (len (tag pre content rest)));
    [unfold maxInt in *; lia|].
  rewrite slice_panic by (unfold maxInt in *; lia). done.
Qed.

(** Every decode that returns is described by [fields]: the relation
    leaves out no text on which the decoder succeeds. *)
Lemma fields_complete input rec rec' :
  len input <= maxInt -> parseFrom rec input = Ok rec' ->
  exists fs, fields input fs /\ rec' = store rec fs.
Proof.
  remember (length input) as k eqn:Hk. revert input rec Hk.
  induction k as [k IH] using lt_wf_ind. intros input rec -> Hmax.
  rewrite parseFrom_unfold.
  destruct (input_shape input) as [H|[(pre & tl & -> & H1 & H2)
                                   |(pre & content & rest & -> & H1 & H2)]].
  - rewrite tagStep_no_open by done. simpl. intros [= <-].
    exists []. split; [|done]. apply fields_end. by left.
  - rewrite tagStep_no_close by done. simpl. intros [= <-].
    exists []. split; [|done]. apply fields_end. right. by exists pre, tl.
  - assert (L : len (tag pre content rest)
                = len pre + len content + 2 + len rest).
    { unfold len, tag. rewrite length_app. simpl. rewrite length_app. simpl. lia. }
    pose proof (len_nonneg pre) as Lp. pose proof (len_nonneg content) as Lc.
    pose proof (len_nonneg rest) as Lr.
    assert (Hshort : forall j, (length (drop j rest)
                                < length (tag pre content rest))%nat).
    { intros j. rewrite length_drop. unfold len in L. lia. }
    destruct (decide (length (Split content ":") < 2)%nat) as [Hp|Hp].
    { rewrite tagStep_nodata by (done || by left). simpl. intros Hrec.
      destruct (IH _ (Hshort 0%nat) rest rec eq_refl ltac:(lia) Hrec)
        as (fs & Hfs & ->).
      exists fs. split; [|done]. apply fields_skip; try done. by left. }
    destruct (Atoi (part (Split content ":") 1)) as [n|] eqn:Ha.
    2:{ rewrite tagStep_nodata by (done || by right). simpl. intros Hrec.
        destruct (IH _ (Hshort 0%nat) rest rec eq_refl ltac:(lia) Hrec)
          as (fs & Hfs & ->).
        exists fs. split; [|done]. apply fields_skip; try done. by right. }
    destruct (Z.lt_ge_cases n 0) as [Hneg|Hpos].
    { rewrite (tagStep_negative _ _ _ n) by (done || lia). done. }
    destruct (Z.lt_ge_cases maxInt (len pre + len content + 2 + n)) as [Hov|Hin].
    { rewrite (tagStep_overflow _ _ _ n) by (done || lia). done. }
    rewrite (tagStep_field _ _ _ n) by (done || lia). simpl. intros Hrec.
    assert (Hd : len (drop (Z.to_nat n) rest) <= maxInt).
    { unfold len in *. rewrite length_drop. lia. }
    destruct (IH _ (Hshort (Z.to_nat n)) _ _ eq_refl Hd Hrec) as (fs & Hfs & ->).
    eexists. split; [apply (fields_tag _ _ _ n); (done || lia)|]. done.
Qed.

(** What the body of the loop does on a text described by [fields]. *)
Lemma fields_tagStep input fs :
  fields input fs ->
  match fs with
  | [] => tagStep input = Ok Break \/
          exists rest, tagStep input = Ok (Continue rest) /\ fields rest []
  | (k, v) :: fs' =>
      (exists rest, tagStep input = Ok (Continue rest) /\ fields rest fs) \/
      (exists rest, tagStep input = Ok (Store k v rest) /\ fields rest fs')
  end.
Proof.
  intros H. destruct H as [input [H|(pre & tl & -> & H1 & H2)]
                          |pre content rest fs H1 H2 Hn Hf
                          |pre content rest n fs H1 H2 Hp Ha Hn Hmax Hf].
  - left. by apply tagStep_no_open.
  - left. by apply tagStep_no_close.
  - rewrite tagStep_nodata by done. destruct fs as [|[k v] fs'].
    + right. by exists rest.
    + left. by exists rest.
  - right. rewrite (tagStep_field _ _ _ n) by done. by eexists.
Qed.

(** The valid tags of a text are determined by the text. *)
Lemma fields_unique input fs fs' :
  fields input fs -> fields input fs' -> fs = fs'.
Proof.
  remember (length input) as k eqn:Hk. revert input fs fs' Hk.
  induction k as [k IH] using lt_wf_ind. intros input fs fs' -> H H'.
  pose proof (fields_tagStep _ _ H) as T.
  pose proof (fields_tagStep _ _ H') as T'.
  destruct (tagStep_cases input)
    as [E|[E|[(i' & E & Hl)|(key & v & i' & E & Hl)]]]; rewrite E in T, T'.
  - destruct fs as [|[k1 v1] fs]; [|destruct T as [(? & ? & _)|(? & ? & _)]; done].
    destruct fs' as [|[k2 v2] fs']; [done|].
    destruct T' as [(? & ? & _)|(? & ? & _)]; done.
  - destruct fs as [|[k1 v1] fs];
      [destruct T as [?|(? & ? & _)] | destruct T as [(? & ? & _)|(? & ? & _)]];
      done.
  - assert (F : fields i' fs).
    { destruct fs as [|[k1 v1] fs].
      - destruct T as [?|(r & [= <-] & Hr)]; done.
      - destruct T as [(r & [= <-] & Hr)|(r & ? & _)]; done. }
    assert (F' : fields i' fs').
    { destruct fs' as [|[k1 v1] fs'].
      - destruct T' as [?|(r & [= <-] & Hr)]; done.
      - destruct T' as [(r & [= <-] & Hr)|(r & ? & _)]; done. }
    by apply (IH _ Hl i').
  - destruct fs as [|[k1 v1] fs]; [destruct T as [?|(? & ? & _)]; done|].
    destruct fs' as [|[k2 v2] fs']; [destruct T' as [?|(? & ? & _)]; done|].
    destruct T as [(? & ? & _)|(r & [= <- <- <-] & Hr)]; [done|].
    destruct T' as [(? & ? & _)|(r' & [= <- <- <-] & Hr')]; [done|].
    f_equal. by apply (IH _ Hl i').
Qed.



End Decoder.

(** ** Statements about the field decoder *)

(** C1. The claim: for every record string, [parseRecord] returns a field
    mapping without raising an error or faulting, also when the length
    segment of a tag parses as a negative integer.  On the code a tag
    with a negative length makes the decoder panic: in
    [<call:-1>K1ABC] the value would be [input[9:8]]. *)
Theorem parseRecord_negative_length_panics :
  parseRecord (lit "<call:-1>K1ABC") = Panic.
Proof. vm_compute. reflexivity. Qed.

(** The part of C1 the code keeps: no error is ever returned, and a
    record string without valid tags decodes to the empty mapping. *)
Lemma parseRecord_no_valid_tag text :
  fields text [] -> parseRecord text = Ok ∅.
Proof. intros H. unfold parseRecord. by rewrite (parseFrom_fields _ _ _ H). Qed.

(** C4. The claim: a tag whose declared non-negative length exceeds what
    is left after [>] gets the remaining suffix as its value, and decoding
    does not fault.  On the code the sum [dataStart + length] wraps around
    for lengths close to the largest [int]; the test [dataEnd > len(input)]
    then does not fire and the slice panics. *)
Theorem parseRecord_huge_length_panics :
  parseRecord (lit "<call:9223372036854775807>K1ABC") = Panic.
Proof. vm_compute. reflexivity. Qed.

(** What the code does for C4 below the wrap-around: the value is the
    remaining suffix and nothing is left to scan. *)
Lemma tagStep_truncates pre content rest n :
  "<"%char ∉ pre -> ">"%char ∉ content ->
  (2 <= length (Split content ":"))%nat ->
  Atoi (part (Split content ":") 1) = Some n ->
  len rest < n ->
  len pre + len content + 2 + n <= maxInt ->
  tagStep (tag pre content rest) =
    Ok (Store (ToUpper (part (Split content ":") 0)) rest []).
Proof.
  intros H1 H2 Hp Ha Hn Hmax. pose proof (len_nonneg rest).
  rewrite (tagStep_field _ _ _ n) by (done || lia).
  rewrite take_ge, drop_ge by (unfold len in *; lia). done.
Qed.






(** ** The aggregator *)

Section Aggregator.
Implicit Types rec : Record.
Implicit Types a : aggregators.

Lemma ToUpper_Y (s : list ascii) :
  ToUpper s = lit "Y" <-> s = lit "Y" \/ s = lit "y".
Proof.
  split.
  - destruct s as [|c [|c' s]]; try done.
    unfold ToUpper. simpl. intros [= H].
    destruct c as [[] [] [] [] [] [] [] []]; vm_compute in H; try discriminate;
      [right | left]; reflexivity.
  - by intros [-> | ->].
Qed.

Lemma isConfirmed_spec rec :
  ToUpper (field rec "QSL_RCVD") = lit "Y" <-> isConfirmed rec.
Proof.
  rewrite ToUpper_Y. unfold isConfirmed, field.
  destruct (rec !! lit "QSL_RCVD") as [q|]; simpl.
  - split.
    + intros [-> | ->]; [by left | by right].
    + intros [[= ->] | [= ->]]; [by left | by right].
  - split; (intros [H|H]; discriminate).
Qed.

Lemma dateOf_spec rec : dateOf rec = Ok (default [] (dateBucket rec)).
Proof.
  assert (Q : (let qsoDateRaw := field rec "QSO_DATE" in
               if len qsoDateRaw =? 8 then
                 let* y := slice qsoDateRaw 0 4 in
                 let* m := slice qsoDateRaw 4 6 in
                 let* d := slice qsoDateRaw 6 8 in
                 Ok (y ++ lit "-" ++ m ++ lit "-" ++ d)
               else Ok []) = Ok (default [] (qsoDateBucket rec))).
  { unfold qsoDateBucket, field. cbv zeta.
    destruct (rec !! lit "QSO_DATE") as [q|]; simpl; [|done].
    destruct (Z.eqb_spec (len q) 8) as [E|E]; unfold len in *.
    - destruct (decide (length q = 8%nat)) as [E'|]; [|lia].
      rewrite !slice_ok by (unfold len; lia). simpl.
      rewrite drop_0. repeat f_equal.
      apply take_ge. rewrite length_drop. lia.
    - destruct (decide (length q = 8%nat)); [lia | done]. }
  unfold dateOf, dateBucket. cbv zeta in Q. rewrite Q.
  destruct (rec !! lit "APP_LOTW_QSO_TIMESTAMP") as [ts|]; [|done].
  destruct (Z.leb_spec 10 (len ts)) as [E|E]; rewrite Z.geb_leb;
    [rewrite (proj2 (Z.leb_le _ _) E) | rewrite (proj2 (Z.leb_gt _ _) E)];
    unfold len in *.
  - destruct (decide (10 <= length ts)%nat); [|lia].
    rewrite slice_ok by (unfold len; lia). simpl. by rewrite drop_0.
  - destruct (decide (10 <= length ts)%nat); [lia | done].
Qed.

Lemma dateBucket_nonempty rec d : dateBucket rec = Some d -> d <> [].
Proof.
  assert (Q : forall d, qsoDateBucket rec = Some d -> d <> []).
  { intros d'. unfold qsoDateBucket.
    destruct (rec !! lit "QSO_DATE") as [q|]; [|done].
    destruct (decide _); [|done]. intros [= <-] H.
    apply (f_equal length) in H. rewrite !length_app in H. simpl in H. lia. }
  unfold dateBucket. destruct (rec !! lit "APP_LOTW_QSO_TIMESTAMP") as [ts|]; [|apply Q].
  destruct (decide _) as [E|]; [|apply Q]. intros [= <-] H.
  apply (f_equal length) in H. rewrite length_take_le in H by lia.
  simpl in H. lia.
Qed.


(** One record: what happens to each of the four aggregators. *)
Lemma recordStep_spec a rec :
  recordStep a rec =
    Ok (mkAggregators
          (inc (field rec "BAND", field rec "MODE") (aggQso a))
          (if bool_decide (ToUpper (field rec "QSL_RCVD") = lit "Y")
           then inc (field rec "BAND", field rec "MODE") (aggQsl a)
           else aggQsl a)
          (match entity rec with
           | Some d => {[d]} ∪ dxccConfirmed a
           | None => dxccConfirmed a
           end)
          (match dateBucket rec with
           | Some d => inc (d ++ lit "|" ++ field rec "BAND") (dateCounts a)
           | None => dateCounts a
           end)).
Proof.
  unfold recordStep. cbv zeta. rewrite dateOf_spec. simpl bind.
  f_equal. unfold entity, inc, Inc, lit.
  cbn [String.list_ascii_of_string]. f_equal.
  - case_bool_decide; [|done]. destruct (rec !! _); [|done].
    by destruct (negb _).
  - destruct (dateBucket rec) as [d|] eqn:E; simpl; [|done].
    apply dateBucket_nonempty in E. destruct d; [done | done].
Qed.

Lemma recordLoop_spec records a :
  exists a', recordLoop a records = Ok a' /\
    dxccConfirmed a' = list_to_set (omap entity records) ∪ dxccConfirmed a.
Proof.
  revert a. induction records as [|rec records IH]; intros a; simpl.
  - exists a. split; [done|]. set_solver.
  - rewrite recordStep_spec. simpl bind.
    match goal with
    | |- context [recordLoop ?x records] =>
        destruct (IH x) as (a' & Ha & Hd); rewrite Ha
    end.
    exists a'. split; [done|]. rewrite Hd. simpl.
    destruct (entity rec); simpl; set_solver.
Qed.

(** A successful cycle publishes the number of distinct entities. *)
Lemma publish_dxccCount c now records :
  exists c', publish c now records = Ok c' /\
    dxccCount c' = Z.of_nat (size (list_to_set (omap entity records)
                                     : gset (list ascii))) /\
    scrapeSuccess c' = 1 /\ lastFetch c' = now /\
    scrapeDuration c' = scrapeDuration c.
Proof.
  unfold publish.
  destruct (recordLoop_spec records (mkAggregators ∅ ∅ ∅ ∅)) as (a' & -> & Hd).
  simpl. eexists. split; [done|]. simpl. rewrite Hd.
  repeat split. do 2 f_equal. set_solver.
Qed.


(** *** From the local map of dates to the published vector *)

Lemma Split_nonempty s (sep : ascii) : Split s sep <> [].
Proof.
  destruct s as [|c s]; simpl; [done|].
  destruct (byte_eqb c sep); [done|]. by destruct (Split s sep).
Qed.

Lemma Split_single s (sep : ascii) : sep ∉ s -> Split s sep = [s].
Proof.
  induction s as [|c s IH]; intros H; [done|]. simpl.
  apply not_elem_of_cons in H as [Hne Hs].
  rewrite (proj2 (byte_eqb_neq c sep)) by done. by rewrite IH.
Qed.

Lemma Split_cons_sep p (sep : ascii) rest :
  sep ∉ p -> Split (p ++ sep :: rest) sep = p :: Split rest sep.
Proof.
  induction p as [|c p IH]; intros H; simpl.
  - by rewrite (proj2 (byte_eqb_eq sep sep) eq_refl).
  - apply not_elem_of_cons in H as [Hne Hp].
    rewrite (proj2 (byte_eqb_neq c sep)) by done. by rewrite IH.
Qed.

Lemma Split_one s (sep : ascii) p : Split s sep = [p] -> sep ∉ s.
Proof.
  intros H Hin. apply list_elem_of_split_l in Hin as (l1 & l2 & -> & Hl1).
  rewrite Split_cons_sep in H by done. injection H as _ H.
  by apply Split_nonempty in H.
Qed.

(** A key has exactly two parts when it is a date, the separator and a
    band, neither of which holds the separator. *)
Lemma Split_two s (sep : ascii) p0 p1 :
  Split s sep = [p0; p1] <->
  s = p0 ++ sep :: p1 /\ (sep ∉ p0) /\ (sep ∉ p1).
Proof.
  split.
  - intros H. destruct (decide (sep ∈ s)) as [Hin|Hout].
    + apply list_elem_of_split_l in Hin as (l1 & l2 & -> & Hl1).
      rewrite Split_cons_sep in H by done. injection H as -> H.
      pose proof (Split_one _ _ _ H) as Hl2.
      rewrite Split_single in H by done. injection H as ->. done.
    + rewrite Split_single in H by done. discriminate H.
  - intros (-> & H0 & H1). rewrite Split_cons_sep by done.
    by rewrite Split_single.
Qed.


End Aggregator.

(** ** Statements about the aggregator *)


(** The three cases on records of the kind LoTW sends. *)
Example date_bucket_examples :
  let r1 : Record :=
    <[lit "APP_LOTW_QSO_TIMESTAMP" := lit "2025-12-10T15:31:30Z"]>
      (<[lit "QSO_DATE" := lit "20251209"]> ∅) in
  let r2 : Record :=
    <[lit "APP_LOTW_QSO_TIMESTAMP" := lit "2025"]>
      (<[lit "QSO_DATE" := lit "20230102"]> ∅) in
  let r3 : Record := <[lit "QSO_DATE" := lit "2023-01-02"]> ∅ in
  dateOf r1 = Ok (lit "2025-12-10") /\
  dateOf r2 = Ok (lit "2023-01-02") /\
  dateOf r3 = Ok [].
Proof. by vm_compute. Qed.



(** ** Statements about a cycle *)

(** C2. A cycle that fails at the fetch, at the reading of the body or at
    the parse leaves the totals, the confirmed totals, the entity count and
    the daily counts as they were (and the time of the last fetch); it sets
    the success gauge to 0 and the duration gauge to the duration of the
    cycle. *)
Theorem failed_cycle_keeps_snapshot (c : Collector) (duration now : Z)
    (r : response) :
  cycleFails r ->
  exists c', fetch c duration now r = Ok c' /\
    qsoTotal c' = qsoTotal c /\ qslTotal c' = qslTotal c /\
    dxccCount c' = dxccCount c /\ qsoHistory c' = qsoHistory c /\
    lastFetch c' = lastFetch c /\
    scrapeSuccess c' = 0 /\ scrapeDuration c' = duration.
Proof.
  intros Hf. destruct r as [| |bodyBytes]; simpl in *.
  - eexists. split; [reflexivity|]. by repeat split.
  - eexists. split; [reflexivity|]. by repeat split.
  - destruct Hf as [e He]. unfold fetch. rewrite He.
    eexists. split; [reflexivity|]. by repeat split.
Qed.

Lemma failed_cycle_keeps_snapshot_witness :
  let c := mkCollector {[ (lit "20M", lit "CW") := 3 ]} ∅ 1 5 1 1700000000
             {[ (lit "2023-01-01", lit "20M") := 3 ]} in
  cycleFails FetchError /\
  exists c', fetch c 60 1700003600 FetchError = Ok c' /\
    qsoTotal c' = qsoTotal c /\ qslTotal c' = qslTotal c /\
    dxccCount c' = dxccCount c /\ qsoHistory c' = qsoHistory c /\
    lastFetch c' = lastFetch c /\
    scrapeSuccess c' = 0 /\ scrapeDuration c' = 60.
Proof.
  intros c. split; [exact I|].
  exact (failed_cycle_keeps_snapshot c 60 1700003600 FetchError I).
Defined.

(** C9. On the empty stream [Parse] returns no record and no error, and
    the cycle publishes: the three vectors are empty, the entity count is
    0, the success gauge is 1 and the time of the last fetch is set. *)
Theorem empty_stream_publishes (c : Collector) (duration now : Z) :
  Parse [] = Ok [] /\
  fetch c duration now (Body []) = Ok (mkCollector ∅ ∅ 0 duration 1 now ∅).
Proof.
  assert (H : Parse [] = Ok []) by (vm_compute; reflexivity).
  split; [exact H|]. unfold fetch. rewrite H. reflexivity.
Qed.

(** ** Occurrences of a marker *)

Section Markers.
Implicit Types s l m p rest : list ascii.

Lemma ToLower_app s p : ToLower (s ++ p) = ToLower s ++ ToLower p.
Proof. apply List.map_app. Qed.

Lemma ToLower_drop n s : ToLower (drop n s) = drop n (ToLower s).
Proof. unfold ToLower. symmetry. apply List.skipn_map. Qed.

Lemma ToLower_take n s : ToLower (take n s) = take n (ToLower s).
Proof. unfold ToLower. symmetry. apply List.firstn_map. Qed.

Lemma ToLower_length s : length (ToLower s) = length s.
Proof. apply List.length_map. Qed.

(** The first occurrence in a text is the first occurrence in every
    extension of the text. *)
Lemma find_app_l s m rest i : find s m = Some i -> find (s ++ rest) m = Some i.
Proof.
  intros H. apply find_Some in H as H'. destruct H' as (H1 & H2 & H3).
  apply HasPrefix_spec in H2 as H2'. destruct H2' as [r Hr].
  assert (Hlen : (i + length m <= length s)%nat).
  { apply (f_equal length) in Hr. rewrite length_drop, length_app in Hr. lia. }
  apply find_intro.
  - rewrite drop_app_le by lia. by apply HasPrefix_app.
  - rewrite length_app. lia.
  - intros j Hj. rewrite drop_app_le by lia.
    apply HasPrefix_app_false; [|by apply H3].
    rewrite length_drop. lia.
Qed.

Lemma occurrences_zero m l :
  occurrences m l = 0%nat <->
  forall j, (j < length l)%nat -> HasPrefix (drop j l) m = false.
Proof.
  induction l as [|c l IH]; simpl.
  - split; [intros _ j Hj; lia | done].
  - split.
    + intros H. destruct (HasPrefix (c :: l) m) eqn:E; [lia|].
      intros [|j] Hj; simpl; [done|]. apply IH; lia.
    + intros H. pose proof (H 0%nat ltac:(lia)) as H0. simpl in H0.
      rewrite H0. simpl. apply IH.
      intros j Hj. apply (H (S j)). lia.
Qed.

Lemma occurrences_none m l : find l m = None -> occurrences m l = 0%nat.
Proof. intros H. apply occurrences_zero. intros j _. by apply find_None. Qed.

Lemma occurrences_take_le m l n :
  (occurrences m (take n l) <= occurrences m l)%nat.
Proof.
  revert n. induction l as [|c l IH]; intros [|n]; simpl; try lia.
  specialize (IH n).
  destruct (HasPrefix (c :: take n l) m) eqn:E; [|lia].
  assert (HasPrefix (c :: l) m = true) as ->; [|lia].
  rewrite <- (take_drop n l) at 1.
  apply (HasPrefix_app (c :: take n l) m (drop n l) E).
Qed.

Lemma occurrences_drop_le m l n :
  (occurrences m (drop n l) <= occurrences m l)%nat.
Proof.
  revert n. induction l as [|c l IH]; intros [|n]; simpl; try lia.
  specialize (IH n). lia.
Qed.

(** Before the first occurrence there is none. *)
Lemma occurrences_before m l i :
  find l m = Some i ->
  occurrences m (take i l) = 0%nat /\
  occurrences m l = occurrences m (drop i l).
Proof.
  intros H. apply find_Some in H as (H1 & H2 & H3). split.
  - apply occurrences_zero. intros j Hj. rewrite length_take in Hj.
    destruct (HasPrefix (drop j (take i l)) m) eqn:E; [|done].
    rewrite <- (H3 j) by lia. symmetry.
    rewrite <- (take_drop i l) at 1. rewrite drop_app_le by (rewrite length_take; lia).
    by apply HasPrefix_app.
  - clear H2. revert l H1 H3. induction i as [|i IH]; intros l H1 H3; [done|].
    destruct l as [|c l]; simpl in *; [lia|].
    pose proof (H3 0%nat ltac:(lia)) as H0. simpl in H0.
    rewrite H0. simpl. apply IH; [lia|].
    intros j Hj. apply (H3 (S j)). lia.
Qed.

(** An end-of-record marker, and what follows it. *)
Lemma occurrences_eor rest :
  occurrences eor (eor ++ rest) = S (occurrences eor rest).
Proof. reflexivity. Qed.

(** Two occurrences of the end-of-record marker do not overlap. *)
Lemma eor_apart l i j :
  HasPrefix (drop i l) eor = true -> HasPrefix (drop j l) eor = true ->
  (i < j)%nat -> (i + 5 <= j)%nat.
Proof.
  intros Hi Hj Hlt. apply HasPrefix_spec in Hi as [r Hr].
  destruct (decide (i + 5 <= j)%nat) as [|Hn]; [done|]. exfalso.
  replace j with (i + (j - i))%nat in Hj by lia.
  rewrite <- drop_drop, Hr in Hj.
  destruct (j - i)%nat as [|[|[|[|[|k]]]]] eqn:E; try lia; discriminate Hj.
Qed.

(** The stream, cut at its first marker. *)
Lemma countMarkers_first s i :
  find (ToLower s) eor = Some i ->
  countMarkers (take i s) = 0%nat /\
  countMarkers s = S (countMarkers (drop (i + 5) s)).
Proof.
  intros H. unfold countMarkers. rewrite ToLower_take, ToLower_drop.
  destruct (occurrences_before _ _ _ H) as [H0 H1]. split; [done|].
  rewrite H1. apply find_Some in H as (_ & H2 & _).
  apply HasPrefix_spec in H2 as [r Hr].
  rewrite <- drop_drop, Hr. rewrite occurrences_eor. by f_equal.
Qed.

Lemma countMarkers_take_le s n : (countMarkers (take n s) <= countMarkers s)%nat.
Proof. unfold countMarkers. rewrite ToLower_take. apply occurrences_take_le. Qed.

End Markers.

(** ** Statements about the header *)

Section Header.
Implicit Types text pre marker post : list ascii.

Lemma stripHeader_at text pre marker post :
  text = pre ++ marker ++ post -> ToLower marker = eoh ->
  (forall j, (j < length pre)%nat -> ~ occursAt eoh text j) ->
  stripHeader text = Ok post.
Proof.
  intros -> Hm Hfirst.
  assert (Hlen : length marker = 5%nat).
  { rewrite <- (ToLower_length marker), Hm. done. }
  assert (F : find (ToLower (pre ++ marker ++ post)) eoh = Some (length pre)).
  { apply find_intro.
    - rewrite !ToLower_app, Hm.
      rewrite drop_app_length' by (by rewrite ToLower_length).
      apply HasPrefix_spec. by eexists.
    - rewrite ToLower_length, length_app. lia.
    - intros j Hj. specialize (Hfirst j Hj). unfold occursAt in Hfirst.
      rewrite ToLower_drop in Hfirst. by destruct (HasPrefix _ eoh). }
  unfold stripHeader. fold eoh. rewrite (Index_find _ _ _ F).
  destruct (Z.geb_spec (Z.of_nat (length pre)) 0); [|lia].
  rewrite slice_from_ok by (unfold len; rewrite ?length_app; lia).
  f_equal. replace (Z.to_nat (Z.of_nat (length pre) + 5))
    with (length pre + length marker)%nat by lia.
  rewrite drop_app_add. by rewrite drop_app_length.
Qed.


End Header.



(** ** The record tokenizer *)

Section Tokenizer.
Implicit Types data r : list ascii.

Lemma find_bound l m i :
  find l m = Some i -> (i + length m <= length l)%nat.
Proof.
  intros H. apply find_Some in H as (Hi & H & _).
  apply HasPrefix_spec in H as [rest Hr].
  apply (f_equal length) in Hr. rewrite length_drop, length_app in Hr. lia.
Qed.

Lemma splitEOR_found data atEOF i :
  find (ToLower data) eor = Some i ->
  splitEOR data atEOF = Ok (Z.of_nat i + 5, Some (take i data)).
Proof.
  intros F. pose proof (find_bound _ _ _ F) as Hb.
  rewrite ToLower_length in Hb. change (length eor) with 5%nat in Hb.
  unfold splitEOR. fold eor.
  replace (len data =? 0) with false
    by (symmetry; apply Z.eqb_neq; unfold len; lia).
  rewrite andb_false_r. rewrite (Index_find _ _ _ F).
  destruct (Z.geb_spec (Z.of_nat i) 0); [|lia].
  destruct (Z.geb_spec (Z.of_nat i) 0); [|lia].
  rewrite slice_ok by (unfold len; lia). simpl bind.
  rewrite drop_0. by rewrite Z.sub_0_r, Nat2Z.id.
Qed.

Lemma splitEOR_none data :
  find (ToLower data) eor = None -> splitEOR data false = Ok (0, None).
Proof.
  intros F. unfold splitEOR. fold eor. rewrite (Index_none _ _ F). done.
Qed.

Lemma splitEOR_none_eof data :
  find (ToLower data) eor = None -> data <> [] ->
  splitEOR data true = Ok (len data, Some data).
Proof.
  intros F Hne. unfold splitEOR. fold eor. rewrite (Index_none _ _ F).
  replace (len data =? 0) with false; [done|].
  symmetry. apply Z.eqb_neq. unfold len. destruct data; [done | simpl; lia].
Qed.

Lemma scanLoop_unfold split fuel s :
  scanLoop split (S fuel) s =
    let* r :=
      if negb (len (pending s) =? 0) || atEOF s then
        let* out := split (pending s) (atEOF s) in
        let advance := fst out in
        if advance <? 0 then Fail ErrNegativeAdvance
        else if advance >? len (pending s) then Fail ErrAdvanceTooFar
        else Ok (mkScanner (drop (Z.to_nat advance) (pending s)) (unread s)
                           (buflen s) (maxTokenSize s) (atEOF s), snd out)
      else Ok (s, None) in
    let s := fst r in
    match snd r with
    | Some token => Ok (s, Some token)
    | None =>
        if atEOF s then
          Ok (mkScanner [] (unread s) (buflen s) (maxTokenSize s) true, None)
        else if len (pending s) =? buflen s then
          if buflen s >=? maxTokenSize s then Fail ErrTooLong
          else
            let newSize := if buflen s =? 0 then 4096 else buflen s * 2 in
            let newSize := Z.min newSize (maxTokenSize s) in
            scanLoop split fuel (readMore s newSize)
        else scanLoop split fuel (readMore s (buflen s))
    end.
Proof. reflexivity. Qed.

(** The scanner has found the first marker among its pending bytes. *)
Lemma scanLoop_found fuel s i :
  scannerInv s ->
  find (ToLower (pending s)) eor = Some i ->
  exists s', scanLoop splitEOR (S fuel) s = Ok (s', nextToken (remaining s)) /\
    remaining s' = afterToken (remaining s) /\ scannerInv s' /\
    maxTokenSize s' = maxTokenSize s.
Proof.
  intros [I1 I2] F. pose proof (find_bound _ _ _ F) as Hb.
  rewrite ToLower_length in Hb. change (length eor) with 5%nat in Hb.
  assert (FR : find (ToLower (remaining s)) eor = Some i).
  { unfold remaining. rewrite ToLower_app. by apply find_app_l. }
  rewrite scanLoop_unfold.
  replace (len (pending s) =? 0) with false
    by (symmetry; apply Z.eqb_neq; unfold len; lia).
  simpl orb. rewrite (splitEOR_found _ _ _ F). simpl bind. cbn [fst snd].
  destruct (Z.ltb_spec (Z.of_nat i + 5) 0); [lia|].
  destruct (Z.gtb_spec (Z.of_nat i + 5) (len (pending s)));
    [unfold len in *; lia|].
  simpl. eexists. split; [|split; [|split]].
  - unfold nextToken. rewrite FR. unfold remaining.
    rewrite take_app_le by lia. reflexivity.
  - unfold afterToken. rewrite FR. unfold remaining. simpl.
    rewrite drop_app_le by lia. do 2 f_equal. lia.
  - split; simpl; [|done]. pose proof (len_nonneg (pending s)).
    unfold len in *. rewrite length_drop. lia.
  - done.
Qed.

(** Under [fits], bytes without a marker never fill the buffer. *)
Lemma fits_pending max data rest :
  fits max (data ++ rest) -> find (ToLower data) eor = None -> len data < max.
Proof.
  intros Hfit F. destruct (Z.lt_ge_cases (len data) max) as [|Hge]; [done|].
  exfalso. unfold len in Hge.
  assert (Hw : (0 + Z.to_nat max <= length (data ++ rest))%nat)
    by (rewrite length_app; lia).
  specialize (Hfit 0%nat Hw). rewrite drop_0 in Hfit.
  rewrite take_app_le in Hfit by lia.
  pose proof (countMarkers_take_le data (Z.to_nat max)) as Hle.
  unfold countMarkers in Hle at 2. rewrite (occurrences_none _ _ F) in Hle. lia.
Qed.

Lemma readMore_spec s size :
  atEOF s = false -> len (pending s) < size ->
  remaining (readMore s size) = remaining s /\
  scannerInv (readMore s size) /\
  maxTokenSize (readMore s size) = maxTokenSize s /\
  ((if atEOF (readMore s size) then 1
    else 2 + length (unread (readMore s size)))
   < 2 + length (unread s))%nat.
Proof.
  destruct s as [P U bl mx e]. simpl. intros -> Hlt.
  unfold readMore, remaining, scannerInv. simpl.
  destruct U as [|u U]; simpl.
  - repeat split; [lia | lia].
  - set (n := Z.to_nat (Z.min (size - len P) (len (u :: U)))).
    assert (Hn : (1 <= n <= length (u :: U))%nat /\ Z.of_nat n <= size - len P).
    { unfold n, len. simpl length. unfold len in Hlt. lia. }
    destruct Hn as [[Hn1 Hn2] Hn3].
    rewrite <- app_assoc, take_drop. split; [done|].
    split; [|split; [done|]].
    + split; [|done]. rewrite len_app. unfold len at 2.
      rewrite length_take. unfold len in *. lia.
    + rewrite length_drop. simpl length in *. lia.
Qed.

(** One call of [Scan]: either bytes without a marker fill the largest
    buffer, and the scanner stops on [ErrTooLong]; or it yields the next
    record string of what it has still to deliver, and keeps the rest to
    deliver.  It never runs out of fuel. *)
Lemma scanLoop_cases fuel s :
  scannerInv s ->
  ((if atEOF s then 1 else 2 + length (unread s)) <= fuel)%nat ->
  (scanLoop splitEOR fuel s = Fail ErrTooLong /\
   exists data rest, remaining s = data ++ rest /\
     find (ToLower data) eor = None /\ maxTokenSize s <= len data) \/
  exists s', scanLoop splitEOR fuel s = Ok (s', nextToken (remaining s)) /\
    remaining s' = afterToken (remaining s) /\ scannerInv s' /\
    maxTokenSize s' = maxTokenSize s.
Proof.
  revert s. induction fuel as [|fuel IH]; intros s Hinv Hfuel.
  { destruct (atEOF s); lia. }
  destruct (find (ToLower (pending s)) eor) as [i|] eqn:F.
  { right. by apply (scanLoop_found fuel s i). }
  destruct (atEOF s) eqn:E.
  - (* the end of the input was seen: what is pending is the last token *)
    right. destruct Hinv as [I1 I2]. specialize (I2 E).
    assert (R : remaining s = pending s).
    { unfold remaining. rewrite I2. apply app_nil_r. }
    rewrite scanLoop_unfold, E, orb_true_r.
    unfold nextToken, afterToken. rewrite R, F.
    destruct (pending s) as [|c P] eqn:EP.
    + simpl. eexists. split; [reflexivity|].
      unfold remaining, scannerInv. simpl. rewrite I2.
      split; [done|]. split; [|done]. split; [exact I1 | done].
    + rewrite splitEOR_none_eof by done. simpl bind. cbn [fst snd].
      destruct (Z.ltb_spec (len (c :: P)) 0); [unfold len in *; lia|].
      destruct (Z.gtb_spec (len (c :: P)) (len (c :: P))); [lia|].
      eexists. split; [reflexivity|].
      unfold remaining, scannerInv. simpl. rewrite I2.
      unfold len. rewrite Nat2Z.id.
      change (drop (length (c :: P)) (c :: P)) with (drop (length P) P).
      rewrite !drop_all. pose proof (len_nonneg (c :: P)).
      split; [done|]. split; [|done]. split; [|done].
      unfold len in *. simpl in *. lia.
  - (* more may come: no token yet *)
    assert (Hr : (if negb (len (pending s) =? 0) || false then
                    let* out := splitEOR (pending s) false in
                    let advance := fst out in
                    if advance <? 0 then Fail ErrNegativeAdvance
                    else if advance >? len (pending s) then Fail ErrAdvanceTooFar
                    else Ok (mkScanner (drop (Z.to_nat advance) (pending s))
                               (unread s) (buflen s) (maxTokenSize s) false,
                             snd out)
                  else Ok (s, None)) = Ok (s, None)).
    { destruct (negb (len (pending s) =? 0)); simpl orb; [|done].
      rewrite (splitEOR_none _ F). simpl bind. cbn [fst snd].
      pose proof (len_nonneg (pending s)).
      destruct (Z.gtb_spec 0 (len (pending s))); [lia|].
      simpl. rewrite drop_0. destruct s; simpl in *. by subst. }
    rewrite scanLoop_unfold, E, Hr. simpl bind. cbn [fst snd]. rewrite E.
    assert (Hstep : forall size, len (pending s) < size ->
      (scanLoop splitEOR fuel (readMore s size) = Fail ErrTooLong /\
       exists data rest, remaining s = data ++ rest /\
         find (ToLower data) eor = None /\ maxTokenSize s <= len data) \/
      exists s', scanLoop splitEOR fuel (readMore s size)
                   = Ok (s', nextToken (remaining s)) /\
        remaining s' = afterToken (remaining s) /\ scannerInv s' /\
        maxTokenSize s' = maxTokenSize s).
    { intros size Hsize.
      destruct (readMore_spec s size E Hsize) as (R1 & R2 & R3 & R4).
      destruct (IH (readMore s size) R2) as [(H1 & H2)|(s' & H1 & H2 & H3 & H4)].
      - lia.
      - left. rewrite R1, R3 in H2. done.
      - right. exists s'. rewrite R1 in H1, H2. rewrite R3 in H4. done. }
    destruct Hinv as [I1 I2]. pose proof (len_nonneg (pending s)).
    destruct (Z.eqb_spec (len (pending s)) (buflen s)) as [Efull|Efull].
    + destruct (Z.geb_spec (buflen s) (maxTokenSize s)).
      * left. split; [done|].
        exists (pending s), (unread s). split; [done|]. split; [done | lia].
      * apply Hstep. destruct (Z.eqb_spec (buflen s) 0); lia.
    + apply Hstep. lia.
Qed.

(** When every record fits in the buffer, the scanner does not fail. *)
Lemma scanLoop_spec fuel s :
  scannerInv s -> fits (maxTokenSize s) (remaining s) ->
  ((if atEOF s then 1 else 2 + length (unread s)) <= fuel)%nat ->
  exists s', scanLoop splitEOR fuel s = Ok (s', nextToken (remaining s)) /\
    remaining s' = afterToken (remaining s) /\ scannerInv s' /\
    maxTokenSize s' = maxTokenSize s.
Proof.
  intros Hinv Hfit Hfuel.
  destruct (scanLoop_cases fuel s Hinv Hfuel)
    as [(_ & data & rest & HR & F & Hlong)|H]; [|done].
  rewrite HR in Hfit. pose proof (fits_pending _ _ _ Hfit F). lia.
Qed.

Lemma terminated_none r :
  terminated r -> find (ToLower r) eor = None -> r = [].
Proof.
  intros [->|(p & m & -> & Hm)] F; [done|]. exfalso.
  pose proof (find_None _ _ (length p) F) as H.
  rewrite ToLower_app, Hm in H.
  rewrite drop_app_length' in H by (by rewrite ToLower_length).
  assert (HasPrefix eor eor = true) by reflexivity. congruence.
Qed.

Lemma terminated_after r i :
  terminated r -> find (ToLower r) eor = Some i ->
  terminated (drop (i + 5) r).
Proof.
  intros [->|(p & m & -> & Hm)] F; [discriminate F|].
  assert (Hlen : length m = 5%nat).
  { rewrite <- (ToLower_length m), Hm. done. }
  apply find_Some in F as (F1 & F2 & F3).
  assert (Hocc : HasPrefix (drop (length p) (ToLower (p ++ m))) eor = true).
  { rewrite ToLower_app, Hm.
    by rewrite drop_app_length' by (by rewrite ToLower_length). }
  destruct (Nat.lt_trichotomy i (length p)) as [Hlt|[->|Hgt]].
  - right. pose proof (eor_apart _ _ _ F2 Hocc Hlt) as Hap.
    exists (drop (i + 5) p), m. split; [|done].
    by rewrite drop_app_le by lia.
  - left. apply drop_ge. rewrite length_app. lia.
  - rewrite (F3 (length p) Hgt) in Hocc. done.
Qed.

Lemma fits_drop max r k : fits max r -> fits max (drop k r).
Proof.
  intros H i Hi. rewrite length_drop in Hi. rewrite drop_drop.
  destruct (Z.to_nat max) as [|w] eqn:E.
  - specialize (H 0%nat). rewrite E in H. simpl in H.
    specialize (H ltac:(lia)). unfold countMarkers in H. simpl in H. lia.
  - specialize (H (k + i)%nat). rewrite E in H. apply H. lia.
Qed.

Lemma countMarkers_zero t :
  countMarkers t = 0%nat -> forall j, ~ occursAt eor t j.
Proof.
  intros H j. unfold occursAt. rewrite ToLower_drop.
  destruct (decide (j < length (ToLower t))%nat) as [Hj|Hj].
  - unfold countMarkers in H.
    rewrite (proj1 (occurrences_zero _ _) H j Hj). done.
  - rewrite drop_ge by lia. done.
Qed.

Lemma terminated_before r i :
  find (ToLower r) eor = Some i ->
  terminated (drop (i + 5) r) -> terminated r.
Proof.
  intros F Ht. pose proof (find_bound _ _ _ F) as Hb.
  rewrite ToLower_length in Hb. change (length eor) with 5%nat in Hb.
  apply find_Some in F as (_ & F & _). rewrite <- ToLower_drop in F.
  apply HasPrefix_spec in F as [rest Hrest].
  assert (Hm : ToLower (take 5 (drop i r)) = eor).
  { rewrite ToLower_take, Hrest. reflexivity. }
  assert (Hr : r = take i r ++ take 5 (drop i r) ++ drop (i + 5) r).
  { rewrite <- (take_drop i r) at 1. f_equal.
    rewrite <- (take_drop 5 (drop i r)) at 1. f_equal.
    rewrite drop_drop. done. }
  right. destruct Ht as [Ht|(p & m & Ht & Hpm)].
  - exists (take i r), (take 5 (drop i r)). split; [|done].
    rewrite Hr at 1. by rewrite Ht, app_nil_r.
  - exists (take i r ++ take 5 (drop i r) ++ p), m. split; [|done].
    rewrite Hr at 1. rewrite Ht. by rewrite <- !app_assoc.
Qed.

(** The loop of the tokenizer on any stream whose records fit in the
    buffer: one record string for each marker, and one more for what
    follows the last marker when something does; none of them holds a
    marker. *)
Lemma forScan_tokens_count n : forall s acc fuel,
  (length (remaining s) <= n)%nat ->
  scannerInv s -> fits (maxTokenSize s) (remaining s) ->
  (length (remaining s) < fuel)%nat ->
  exists tokens,
    forScan splitEOR fuel (fun acc token => Ok (acc ++ [token])) s acc
      = Ok (acc ++ tokens) /\
    (terminated (remaining s) /\
       length tokens = countMarkers (remaining s) \/
     ~ terminated (remaining s) /\
       length tokens = S (countMarkers (remaining s))) /\
    Forall (fun t => forall j, ~ occursAt eor t j) tokens.
Proof.
  induction n as [n IH] using lt_wf_ind.
  intros s acc fuel Hn Hinv Hfit Hfuel.
  destruct fuel as [|fuel]; [lia|]. simpl forScan. unfold Scan.
  destruct (scanLoop_spec (2 + length (unread s)) s Hinv Hfit)
    as (s' & -> & HR & Hinv' & Hmax); [destruct (atEOF s); lia|].
  simpl bind. cbn [fst snd]. unfold nextToken, afterToken in *.
  destruct (find (ToLower (remaining s)) eor) as [i|] eqn:F.
  - pose proof (find_bound _ _ _ F) as Hb.
    rewrite ToLower_length in Hb. change (length eor) with 5%nat in Hb.
    destruct (countMarkers_first _ _ F) as [C0 C1].
    assert (Hlen : length (remaining s') = (length (remaining s) - (i + 5))%nat).
    { rewrite HR. apply length_drop. }
    destruct (IH (length (remaining s')) ltac:(lia) s'
                (acc ++ [take i (remaining s)]) fuel)
      as (tokens & Htoks & Hcount & Hfree); [lia | done | | lia |].
    + rewrite Hmax, HR. by apply fits_drop.
    + exists (take i (remaining s) :: tokens). rewrite Htoks.
      split; [by rewrite <- app_assoc|]. split.
      * rewrite HR in Hcount. simpl. rewrite C1.
        destruct Hcount as [[Ht Hc]|[Ht Hc]]; [left | right].
        -- split; [by apply (terminated_before _ i) | by rewrite Hc].
        -- split; [|by rewrite Hc]. intros H. apply Ht.
           by apply terminated_after.
      * constructor; [by apply countMarkers_zero | done].
  - assert (C0 : countMarkers (remaining s) = 0%nat)
      by (by apply occurrences_none).
    destruct (remaining s) as [|c r] eqn:ER.
    + exists []. rewrite app_nil_r. split; [done|].
      split; [left; split; [by left | done] | constructor].
    + destruct (IH 0%nat ltac:(simpl in Hn; lia) s' (acc ++ [c :: r]) fuel)
        as (tokens & Htoks & Hcount & Hfree).
      * by rewrite HR.
      * done.
      * rewrite Hmax, HR. rewrite <- (drop_all (c :: r)). by apply fits_drop.
      * rewrite HR. simpl in *. lia.
      * exists ((c :: r) :: tokens). rewrite Htoks.
        split; [by rewrite <- app_assoc|]. rewrite HR in Hcount. split.
        -- right. split; [intros Ht; by pose proof (terminated_none _ Ht F)|].
           simpl. rewrite C0.
           destruct Hcount as [[_ Hc]|[Ht _]]; [by rewrite Hc|].
           exfalso. apply Ht. by left.
        -- constructor; [by apply countMarkers_zero | done].
Qed.


(** The tokens of [tokensOf] are the tokens the loop of [Parse] works
    on: whatever the body, the loop is the body run over them in turn. *)
Lemma forScan_foldTokens {A : Type} split fuel (body : A -> list ascii -> result A) :
  forall s acc0 out,
  forScan split fuel (fun acc token => Ok (acc ++ [token])) s acc0 = Ok out ->
  exists tokens, out = acc0 ++ tokens /\
    forall acc, forScan split fuel body s acc = foldTokens body acc tokens.
Proof.
  induction fuel as [|fuel IH]; intros s acc0 out; simpl; [done|].
  destruct (Scan split s) as [[s' [token|]]| | |]; simpl; try done.
  - intros H. destruct (IH s' _ _ H) as (tokens & -> & Hbody).
    exists (token :: tokens). split; [by rewrite <- app_assoc|].
    intros acc. cbn [foldTokens].
    destruct (body acc token); cbn [bind fst snd]; done.
  - intros [= <-]. exists []. split; [by rewrite app_nil_r | done].
Qed.

Lemma ParseWith_tokens size max r tokens :
  tokensOf size max r = Ok tokens ->
  ParseWith size max r = foldTokens recordOf [] tokens.
Proof.
  unfold tokensOf, ParseWith. intros H.
  destruct (forScan_foldTokens splitEOR _ recordOf _ _ _ H) as (toks & -> & Hb).
  apply Hb.
Qed.

(** *** The loop of [Parse] always ends *)

Lemma afterToken_shorter r token :
  nextToken r = Some token -> (length (afterToken r) < length r)%nat.
Proof.
  unfold nextToken, afterToken.
  destruct (find (ToLower r) eor) as [i|] eqn:F.
  - intros _. pose proof (find_bound _ _ _ F) as Hb.
    rewrite ToLower_length in Hb. change (length eor) with 5%nat in Hb.
    rewrite length_drop. lia.
  - destruct r; [done | simpl; lia].
Qed.

Lemma stripHeader_cases text :
  (exists text', stripHeader text = Ok text') \/ stripHeader text = Panic.
Proof.
  unfold stripHeader. destruct (_ >=? 0); [|by left; eexists].
  unfold slice_from. destruct (slice_cases text
    (Index (ToLower text) (lit "<eoh>") + 5) (len text)) as [[v ->] | ->];
    [left; by eexists | by right].
Qed.

Lemma recordOf_cases records token :
  (exists records', recordOf records token = Ok records') \/
  recordOf records token = Panic.
Proof.
  unfold recordOf. destruct (_ =? 0); [by left; eexists|].
  destruct (stripHeader_cases (TrimSpace token)) as [[text ->] | ->];
    [|by right]. simpl bind. unfold parseRecord.
  destruct (parseFrom_total ∅ text) as [[rec ->] | ->]; [|by right].
  simpl bind. destruct (_ >? 0); left; by eexists.
Qed.

(** With a body that returns or panics, the loop over the tokens returns,
    fails with [ErrTooLong] or panics: the bound on its iterations is
    never reached. *)
Lemma forScan_total {A : Type} (body : A -> list ascii -> result A) :
  (forall acc token, (exists a, body acc token = Ok a) \/ body acc token = Panic) ->
  forall n s acc fuel,
  (length (remaining s) <= n)%nat -> scannerInv s ->
  (length (remaining s) < fuel)%nat ->
  (exists a, forScan splitEOR fuel body s acc = Ok a) \/
  forScan splitEOR fuel body s acc = Fail ErrTooLong \/
  forScan splitEOR fuel body s acc = Panic.
Proof.
  intros Hbody. induction n as [n IH] using lt_wf_ind.
  intros s acc fuel Hn Hinv Hfuel.
  destruct fuel as [|fuel]; [lia|]. simpl forScan. unfold Scan.
  destruct (scanLoop_cases (2 + length (unread s)) s Hinv)
    as [(-> & _) | (s' & -> & HR & Hinv' & _)];
    [destruct (atEOF s); lia | by right; left |].
  simpl bind. cbn [fst snd].
  destruct (nextToken (remaining s)) as [token|] eqn:T; [|by left; eexists].
  apply afterToken_shorter in T. rewrite <- HR in T.
  destruct (Hbody acc token) as [[a ->] | ->]; [|by right; right].
  simpl bind. apply (IH (length (remaining s'))); (done || lia).
Qed.

Lemma Parse_total r :
  (exists records, Parse r = Ok records) \/ Parse r = Fail ErrTooLong \/
  Parse r = Panic.
Proof.
  unfold Parse, ParseWith.
  apply (forScan_total recordOf recordOf_cases (length r)).
  - unfold remaining. simpl. lia.
  - split; [unfold len; simpl; lia | done].
  - unfold remaining. simpl. lia.
Qed.

(** *** A record larger than the buffer *)

Lemma readMore_more s size :
  atEOF s = false -> unread s <> [] ->
  atEOF (readMore s size) = false /\ buflen (readMore s size) = size.
Proof.
  intros E Hu. unfold readMore. destruct (unread s); [done|]. done.
Qed.

Lemma markerfree_pending s :
  countMarkers (remaining s) = 0%nat -> find (ToLower (pending s)) eor = None.
Proof.
  intros H0. destruct (find (ToLower (pending s)) eor) as [i|] eqn:F; [|done].
  assert (FR : find (ToLower (remaining s)) eor = Some i).
  { unfold remaining. rewrite ToLower_app. by apply find_app_l. }
  destruct (countMarkers_first _ _ FR) as [_ C]. lia.
Qed.

(** When what is left holds no marker and is at least as long as the
    largest buffer, [Scan] stops on [ErrTooLong]. *)
Lemma scanLoop_too_long fuel s :
  scannerInv s -> buflen s <= maxTokenSize s -> atEOF s = false ->
  countMarkers (remaining s) = 0%nat ->
  maxTokenSize s <= len (remaining s) ->
  (2 + length (unread s) <= fuel)%nat ->
  scanLoop splitEOR fuel s = Fail ErrTooLong.
Proof.
  revert s. induction fuel as [|fuel IH]; intros s Hinv Hbuf E H0 Hlong Hfuel;
    [lia|].
  pose proof (markerfree_pending s H0) as F.
  assert (Hr : (if negb (len (pending s) =? 0) || false then
                  let* out := splitEOR (pending s) false in
                  let advance := fst out in
                  if advance <? 0 then Fail ErrNegativeAdvance
                  else if advance >? len (pending s) then Fail ErrAdvanceTooFar
                  else Ok (mkScanner (drop (Z.to_nat advance) (pending s))
                             (unread s) (buflen s) (maxTokenSize s) false,
                           snd out)
                else Ok (s, None)) = Ok (s, None)).
  { destruct (negb (len (pending s) =? 0)); simpl orb; [|done].
    rewrite (splitEOR_none _ F). simpl bind. cbn [fst snd].
    pose proof (len_nonneg (pending s)).
    destruct (Z.gtb_spec 0 (len (pending s))); [lia|].
    simpl. rewrite drop_0. destruct s; simpl in *. by subst. }
  rewrite scanLoop_unfold, E, Hr. simpl bind. cbn [fst snd]. rewrite E.
  destruct Hinv as [I1 I2]. pose proof (len_nonneg (pending s)) as Lp.
  assert (Hstep : forall size,
            len (pending s) < size -> size <= maxTokenSize s ->
            scanLoop splitEOR fuel (readMore s size) = Fail ErrTooLong).
  { intros size Hsize Hle.
    assert (Hu : unread s <> []).
    { intros Hu. unfold remaining in Hlong. rewrite Hu, app_nil_r in Hlong. lia. }
    destruct (readMore_spec s size E Hsize) as (R1 & R2 & R3 & R4).
    destruct (readMore_more s size E Hu) as (M1 & M2).
    rewrite M1 in R4.
    apply IH; rewrite ?R1, ?R3, ?M2; (done || lia). }
  destruct (Z.eqb_spec (len (pending s)) (buflen s)) as [Efull|Efull].
  - destruct (Z.geb_spec (buflen s) (maxTokenSize s)); [done|].
    apply Hstep; destruct (Z.eqb_spec (buflen s) 0); lia.
  - apply Hstep; lia.
Qed.

(** [Parse] fails on such a stream: this is the failure of a cycle at
    the parse stage. *)
Lemma ParseWith_too_long size max r :
  0 <= size <= max -> countMarkers r = 0%nat -> max <= len r ->
  ParseWith size max r = Fail ErrTooLong.
Proof.
  intros Hsize H0 Hlong. unfold ParseWith. simpl forScan. unfold Scan.
  rewrite scanLoop_too_long; try done.
  - split; [unfold len; simpl; lia | done].
  - simpl. lia.
Qed.

Lemma countMarkers_repeat n : countMarkers (repeat "a"%char n) = 0%nat.
Proof.
  unfold countMarkers. induction n as [|n IH]; [done|]. simpl.
  change (map lower_byte (repeat "a"%char n)) with (ToLower (repeat "a"%char n)).
  by rewrite IH.
Qed.

Lemma Parse_too_long :
  Parse (repeat "a"%char (Z.to_nat (50 * 1024 * 1024))) = Fail ErrTooLong.
Proof.
  unfold Parse. apply ParseWith_too_long.
  - lia.
  - apply countMarkers_repeat.
  - unfold len. rewrite repeat_length. lia.
Qed.

End Tokenizer.

(** The number of record strings on any stream whose records fit in the
    buffer: one for each marker, and one more when something, be it white
    space, follows the last marker. *)
Lemma tokenizer_count (size max : Z) (r : list ascii) :
  0 <= size -> fits max r ->
  exists tokens, tokensOf size max r = Ok tokens /\
    (terminated r /\ length tokens = countMarkers r \/
     ~ terminated r /\ length tokens = S (countMarkers r)) /\
    Forall (fun t => forall j, ~ occursAt eor t j) tokens.
Proof.
  intros Hsize Hfit. unfold tokensOf.
  assert (Hinv : scannerInv (NewScanner r size max))
    by (split; [exact Hsize | done]).
  destruct (forScan_tokens_count (length r) (NewScanner r size max) []
              (2 + length r)
              ltac:(unfold remaining; simpl; lia) Hinv Hfit
              ltac:(unfold remaining; simpl; lia))
    as (tokens & H1 & H2 & H3).
  by exists tokens.
Qed.

(** The stream of [TestParse] ends with a line feed after its second
    marker: the tokenizer yields three record strings, the last of which
    [Parse] drops as white space. *)
Example TestParse_tokens :
  tokensOf (64 * 1024) (50 * 1024 * 1024) (lit "
<call:5>K1ABC <qso_date:8>20230101 <mode:2>CW <eor>
<call:6>JA1XYZ <qso_date:8>20230102 <mode:3>SSB <qsl_rcvd:1>Y <eor>
") = Ok [lit "
<call:5>K1ABC <qso_date:8>20230101 <mode:2>CW ";
         lit "
<call:6>JA1XYZ <qso_date:8>20230102 <mode:3>SSB <qsl_rcvd:1>Y ";
         lit "
"].
Proof. vm_compute. reflexivity. Qed.



(** A cycle ends with the gauges set, or in the panic of the decoder; it
    returns no error and the bounds on its loops are never reached. *)
Lemma fetch_total (c : Collector) (duration now : Z) (r : response) :
  (exists c', fetch c duration now r = Ok c') \/
  fetch c duration now r = Panic.
Proof.
  destruct r as [| |bodyBytes]; simpl; [left; by eexists | left; by eexists |].
  destruct (Parse_total bodyBytes) as [[records ->] | [-> | ->]].
  - left. destruct (publish_dxccCount
      (mkCollector (qsoTotal c) (qslTotal c) (dxccCount c) duration
         (scrapeSuccess c) (lastFetch c) (qsoHistory c)) now records)
      as (c' & -> & _). by eexists.
  - left. by eexists.
  - by right.
Qed.

(** The failure of a cycle at the parse stage does happen: a stream of
    50 MiB without a marker is more than the scanner takes. *)
Lemma parse_stage_can_fail :
  cycleFails (Body (repeat "a"%char (Z.to_nat (50 * 1024 * 1024)))).
Proof. exists ErrTooLong. apply Parse_too_long. Qed.

(** ** The test of the repository *)

(** [TestParse] of [parser_test.go]: two records, with the fields the
    test looks at. *)
Example TestParse :
  exists r1 r2,
    Parse (lit "
<call:5>K1ABC <qso_date:8>20230101 <mode:2>CW <eor>
<call:6>JA1XYZ <qso_date:8>20230102 <mode:3>SSB <qsl_rcvd:1>Y <eor>
") = Ok [r1; r2] /\
    r1 !! lit "CALL" = Some (lit "K1ABC") /\
    r2 !! lit "MODE" = Some (lit "SSB") /\
    r2 !! lit "QSL_RCVD" = Some (lit "Y").
Proof. eexists _, _. split; [vm_compute; reflexivity|]. by vm_compute. Qed.

(** * Further properties of the code *)

(** ** The field decoder *)

(** X1. A text in which no tag is left (no [<], or a [<] that no [>]
    follows: the malformed tag at which the source stops) ends the decoding
    with the mapping built so far; what is left of the text is dropped
    without an error. *)
Theorem unterminated_tag_stops (rec : Record) (input : list ascii) :
  tagless input -> parseFrom rec input = Ok rec.
Proof.
  intros [H|(pre & tl & -> & H1 & H2)]; rewrite parseFrom_unfold.
  - by rewrite tagStep_no_open.
  - by rewrite tagStep_no_close.
Qed.

Lemma unterminated_tag_stops_witness :
  tagless (lit " trailing <call:5") /\
  parseFrom {[lit "MODE" := lit "CW"]} (lit " trailing <call:5")
    = Ok {[lit "MODE" := lit "CW"]}.
Proof.
  assert (H : tagless (lit " trailing <call:5")).
  { right. exists (lit " trailing "), (lit "call:5").
    split; [reflexivity|]. split; compute_done. }
  split; [exact H|]. exact (unterminated_tag_stops _ _ H).
Defined.

Lemma parseFrom_field (rec : Record) (pre content rest : list ascii) (n : Z) :
  "<"%char ∉ pre -> ">"%char ∉ content ->
  (2 <= length (Split content ":"))%nat ->
  Atoi (part (Split content ":") 1) = Some n ->
  0 <= n ->
  len pre + len content + 2 + n <= maxInt ->
  parseFrom rec (tag pre content rest) =
    parseFrom (<[ToUpper (part (Split content ":") 0) := take (Z.to_nat n) rest]> rec)
              (drop (Z.to_nat n) rest).
Proof.
  intros H1 H2 Hp Ha Hn Hmax.
  rewrite parseFrom_unfold, (tagStep_field _ _ _ n) by done. done.
Qed.

(** X2. A tag with a declared length [n >= 0] (and [dataStart + n]
    within the range of [int]) stores under the upper-cased name the [n]
    bytes that follow its [>], or all that is left when there are fewer;
    the scan goes on after these bytes, so that a [<] inside the value is
    not read as a tag.  The content of the tag is ASCII text, for which
    the byte-wise [ToUpper] is the one of Go. *)
Theorem field_decoded (rec : Record) (pre content rest : list ascii) (n : Z) :
  isASCII content = true ->
  "<"%char ∉ pre -> ">"%char ∉ content ->
  (2 <= length (Split content ":"))%nat ->
  Atoi (part (Split content ":") 1) = Some n ->
  0 <= n ->
  len pre + len content + 2 + n <= maxInt ->
  parseFrom rec (tag pre content rest) =
    parseFrom (<[ToUpper (part (Split content ":") 0) := take (Z.to_nat n) rest]> rec)
              (drop (Z.to_nat n) rest).
Proof.
  intros _. apply parseFrom_field.
Qed.

Lemma field_decoded_witness :
  parseFrom ∅ (tag [] (lit "comment:5") (lit "a<b:c <mode:2>CW")) =
  parseFrom (<[lit "COMMENT" := lit "a<b:c"]> ∅) (lit " <mode:2>CW").
Proof.
  refine (field_decoded ∅ [] (lit "comment:5") (lit "a<b:c <mode:2>CW") 5
            eq_refl _ _ _ eq_refl _ _);
    [compute_done | compute_done | simpl; lia | lia | vm_compute; discriminate].
Defined.

(** X3. Every tag whose length segment is a negative integer makes the
    decoder panic, whatever precedes and follows it: the value would be
    the slice [input[dataStart:dataEnd]] with [dataEnd < dataStart]. *)
Theorem negative_length_panics (rec : Record) (pre content rest : list ascii)
    (n : Z) :
  "<"%char ∉ pre -> ">"%char ∉ content ->
  (2 <= length (Split content ":"))%nat ->
  Atoi (part (Split content ":") 1) = Some n ->
  n < 0 ->
  len (tag pre content rest) <= maxInt ->
  parseFrom rec (tag pre content rest) = Panic.
Proof.
  intros H1 H2 Hp Ha Hn Hmax.
  rewrite parseFrom_unfold, (tagStep_negative _ _ _ n) by done. done.
Qed.

Lemma negative_length_panics_witness :
  parseFrom {[lit "MODE" := lit "CW"]}
    (tag (lit " ") (lit "rst_sent:-3:S") (lit "599")) = Panic.
Proof.
  refine (negative_length_panics _ (lit " ") (lit "rst_sent:-3:S")
            (lit "599") (-3) _ _ _ eq_refl _ _);
    [compute_done | compute_done | simpl; lia | lia | vm_compute; discriminate].
Defined.

(** X4. A declared length so large that [dataStart + length] exceeds the
    largest [int] makes the decoder panic as well: the sum wraps around to
    a negative [dataEnd], which the test [dataEnd > len(input)] lets
    through. *)
Theorem overflowing_length_panics (rec : Record)
    (pre content rest : list ascii) (n : Z) :
  "<"%char ∉ pre -> ">"%char ∉ content ->
  (2 <= length (Split content ":"))%nat ->
  Atoi (part (Split content ":") 1) = Some n ->
  maxInt < len pre + len content + 2 + n ->
  len (tag pre content rest) <= maxInt ->
  parseFrom rec (tag pre content rest) = Panic.
Proof.
  intros H1 H2 Hp Ha Hn Hmax.
  rewrite parseFrom_unfold, (tagStep_overflow _ _ _ n) by done. done.
Qed.

Lemma overflowing_length_panics_witness :
  parseFrom ∅ (tag [] (lit "call:9223372036854775800") (lit "K1ABC")) = Panic.
Proof.
  refine (overflowing_length_panics ∅ [] (lit "call:9223372036854775800")
            (lit "K1ABC") 9223372036854775800 _ _ _ eq_refl _ _);
    [compute_done | compute_done | simpl; lia | vm_compute; reflexivity
    | vm_compute; discriminate].
Defined.




(** X6. Whenever the decoder returns a record, the text is a sequence of
    tags without data and of valid tags, each with a length that is not
    negative and within range, and the record is the store of the valid
    tags from left to right, on the empty mapping: nothing else is ever
    in a decoded record.  For ASCII text, as for X2. *)
Theorem decoded_record_is_store (text : list ascii) (rec : Record) :
  isASCII text = true ->
  len text <= maxInt -> parseRecord text = Ok rec ->
  exists fs, fields text fs /\ rec = store ∅ fs.
Proof. intros _ Hmax H. by apply fields_complete. Qed.

Lemma decoded_record_is_store_witness :
  exists fs, fields (lit "<call:5>K1ABC <Call:4:S>W1AW") fs /\
    <[lit "CALL" := lit "W1AW"]> (<[lit "CALL" := lit "K1ABC"]> ∅) = store ∅ fs.
Proof.
  refine (decoded_record_is_store (lit "<call:5>K1ABC <Call:4:S>W1AW") _
            eq_refl _ _);
    [vm_compute; discriminate | vm_compute; reflexivity].
Defined.

Section Keys.

Lemma upper_byte_noLower (c : ascii) :
  ~ (97 <= nat_of_ascii (upper_byte c) <= 122)%nat.
Proof. destruct c as [[] [] [] [] [] [] [] []]; vm_compute; lia. Qed.

Lemma ToUpper_noLower (s : list ascii) : noLower (ToUpper s).
Proof.
  intros c Hc. unfold ToUpper in Hc. apply list_elem_of_In in Hc.
  apply List.in_map_iff in Hc as (c0 & <- & _). apply upper_byte_noLower.
Qed.

Lemma tagStep_store_key input k v input' :
  tagStep input = Ok (Store k v input') -> exists name, k = ToUpper name.
Proof.
  destruct (input_shape input) as [H|[(pre & tl & -> & H1 & H2)
                                   |(pre & content & rest & -> & H1 & H2)]].
  - by rewrite tagStep_no_open.
  - by rewrite tagStep_no_close.
  - rewrite tagStep_tag by done. cbv zeta.
    destruct (_ <? 2); [done|].
    destruct (Atoi _) as [n|]; [|done].
    destruct (slice _ _ _); simpl; try done.
    destruct (slice_from _ _); simpl; try done.
    intros [= <- _ _]. by eexists.
Qed.

Lemma parseFrom_keys input : forall rec rec',
  (forall k, is_Some (rec !! k) -> noLower k) ->
  parseFrom rec input = Ok rec' ->
  forall k, is_Some (rec' !! k) -> noLower k.
Proof.
  remember (length input) as n eqn:Hn. revert input Hn.
  induction n as [n IH] using lt_wf_ind. intros input -> rec rec' Hrec.
  rewrite parseFrom_unfold.
  destruct (tagStep_cases input)
    as [E|[E|[(i' & E & Hl)|(key & v & i' & E & Hl)]]]; rewrite E; simpl.
  - by intros [= <-].
  - done.
  - by apply (IH _ Hl i').
  - apply (IH _ Hl i' eq_refl). intros k Hk.
    destruct (decide (key = k)) as [<-|Hne].
    + destruct (tagStep_store_key _ _ _ _ E) as [name ->].
      apply ToUpper_noLower.
    + rewrite lookup_insert_ne in Hk by done. by apply Hrec.
Qed.

End Keys.

(** X7. Every key of a decoded record is in upper case: none has a byte
    [a] to [z], however the name is written in the tag.  (The aggregator
    looks the fields up under upper-case names.) *)
Theorem decoded_keys_upper_case (text : list ascii) (rec : Record)
    (k : list ascii) :
  parseRecord text = Ok rec -> is_Some (rec !! k) -> noLower k.
Proof.
  intros H. apply (parseFrom_keys text ∅ rec); [|done].
  intros k' Hk'. rewrite lookup_empty in Hk'. by destruct Hk'.
Qed.

Lemma decoded_keys_upper_case_witness :
  noLower (lit "QSL_RCVD").
Proof.
  refine (decoded_keys_upper_case (lit "<Qsl_Rcvd:1>y")
            (<[lit "QSL_RCVD" := lit "y"]> ∅) (lit "QSL_RCVD") _ _);
    [vm_compute; reflexivity | by eexists].
Defined.

(** ** The record tokenizer *)

(** X8. The split function keeps the contract [bufio.Scanner] asks of
    it, on ASCII data: it never faults; the advance it returns is within
    the data; a token is a prefix of the data without a marker and comes
    with a positive advance; without a token the advance is 0, and this
    happens at the end of the input only when no data is left. *)
Theorem split_contract (data : list ascii) (atEOF : bool) :
  isASCII data = true ->
  exists advance token, splitEOR data atEOF = Ok (advance, token) /\
    0 <= advance <= len data /\
    match token with
    | Some t => 0 < advance /\ (exists rest, data = t ++ rest) /\
                (forall j, ~ occursAt eor t j)
    | None => advance = 0 /\ (atEOF = true -> data = [])
    end.
Proof.
  intros _. pose proof (len_nonneg data) as Hl.
  destruct (find (ToLower data) eor) as [i|] eqn:F.
  - pose proof (find_bound _ _ _ F) as Hb.
    rewrite ToLower_length in Hb. change (length eor) with 5%nat in Hb.
    rewrite (splitEOR_found _ _ _ F). eexists _, _. split; [reflexivity|].
    split; [unfold len; lia|]. split; [lia|]. split.
    + exists (drop i data). by rewrite take_drop.
    + apply countMarkers_zero. by destruct (countMarkers_first _ _ F).
  - destruct atEOF.
    + destruct data as [|c data].
      * exists 0, None. split; [reflexivity|]. split; [unfold len; simpl; lia|done].
      * rewrite splitEOR_none_eof by done. eexists _, _. split; [reflexivity|].
        split; [lia|]. split; [unfold len; simpl; lia|]. split.
        -- exists []. by rewrite app_nil_r.
        -- apply countMarkers_zero. by apply occurrences_none.
    + rewrite splitEOR_none by done. exists 0, None.
      split; [reflexivity|]. split; [lia|]. done.
Qed.

Lemma split_contract_witness :
  exists advance token,
    splitEOR (lit "<call:5>K1ABC <EoR><call:6>JA1") false = Ok (advance, token) /\
    0 <= advance <= len (lit "<call:5>K1ABC <EoR><call:6>JA1") /\
    match token with
    | Some t => 0 < advance /\
                (exists rest, lit "<call:5>K1ABC <EoR><call:6>JA1" = t ++ rest) /\
                (forall j, ~ occursAt eor t j)
    | None => advance = 0 /\ (false = true -> lit "<call:5>K1ABC <EoR><call:6>JA1" = [])
    end.
Proof.
  exact (split_contract (lit "<call:5>K1ABC <EoR><call:6>JA1") false eq_refl).
Defined.

Section Chops.
Implicit Types r ws : list ascii.

Lemma fits_afterToken max r : fits max r -> fits max (afterToken r).
Proof.
  intros H. unfold afterToken. destruct (find (ToLower r) eor).
  - by apply fits_drop.
  - rewrite <- (drop_all r). by apply fits_drop.
Qed.

Lemma fits_app_l max r ws : fits max (r ++ ws) -> fits max r.
Proof.
  intros H i Hi. specialize (H i). rewrite length_app in H.
  specialize (H ltac:(lia)).
  rewrite drop_app_le in H by lia.
  rewrite take_app_le in H by (rewrite length_drop; lia). done.
Qed.

(** The loop of the tokenizer yields the record strings of the stream. *)
Lemma forScan_chops n : forall s acc fuel,
  (length (remaining s) <= n)%nat ->
  scannerInv s -> fits (maxTokenSize s) (remaining s) ->
  (length (remaining s) < fuel)%nat ->
  exists tokens,
    forScan splitEOR fuel (fun acc token => Ok (acc ++ [token])) s acc
      = Ok (acc ++ tokens) /\
    chops (remaining s) tokens.
Proof.
  induction n as [n IH] using lt_wf_ind.
  intros s acc fuel Hn Hinv Hfit Hfuel.
  destruct fuel as [|fuel]; [lia|]. simpl forScan. unfold Scan.
  destruct (scanLoop_spec (2 + length (unread s)) s Hinv Hfit)
    as (s' & -> & HR & Hinv' & Hmax); [destruct (atEOF s); lia|].
  simpl bind. cbn [fst snd].
  destruct (nextToken (remaining s)) as [token|] eqn:T.
  - pose proof (afterToken_shorter _ _ T) as Hshort. rewrite <- HR in Hshort.
    destruct (IH (length (remaining s')) ltac:(lia) s' (acc ++ [token]) fuel)
      as (tokens & Htoks & Hchops); [lia | done | | lia |].
    + rewrite Hmax, HR. by apply fits_afterToken.
    + exists (token :: tokens). rewrite Htoks.
      split; [by rewrite <- app_assoc|].
      apply chops_token; [done|]. by rewrite <- HR.
  - exists []. rewrite app_nil_r. split; [done|]. by apply chops_end.
Qed.

Lemma tokensOf_chops size max r :
  0 <= size -> fits max r ->
  exists tokens, tokensOf size max r = Ok tokens /\ chops r tokens.
Proof.
  intros Hsize Hfit. unfold tokensOf.
  assert (Hinv : scannerInv (NewScanner r size max))
    by (split; [exact Hsize | done]).
  destruct (forScan_chops (length r) (NewScanner r size max) [] (2 + length r)
              ltac:(unfold remaining; simpl; lia) Hinv Hfit
              ltac:(unfold remaining; simpl; lia))
    as (tokens & H1 & H2).
  by exists tokens.
Qed.

Lemma chops_unique r tokens tokens' :
  chops r tokens -> chops r tokens' -> tokens = tokens'.
Proof.
  intros H. revert tokens'.
  induction H as [r H|r token tokens H _ IH]; intros tokens' H';
    inversion H' as [r' H1|r' token' tokens'' H1 H2]; subst; try congruence.
  rewrite H in H1. injection H1 as <-. f_equal. by apply IH.
Qed.

(** [Parse] is its loop body run over the record strings of the stream. *)
Lemma ParseWith_chops size max r tokens :
  0 <= size -> fits max r -> chops r tokens ->
  ParseWith size max r = foldTokens recordOf [] tokens.
Proof.
  intros Hsize Hfit Hc.
  destruct (tokensOf_chops size max r Hsize Hfit) as (tokens' & Ht & Hc').
  rewrite (chops_unique _ _ _ Hc Hc'). by apply ParseWith_tokens.
Qed.

(** The stream is its record strings, each followed by its marker. *)
Lemma chops_rebuild r tokens :
  chops r tokens -> terminated r ->
  exists markers, length markers = length tokens /\
    Forall (fun m => ToLower m = eor) markers /\
    r = concat (zip_with app tokens markers).
Proof.
  intros H. induction H as [r H|r token tokens H _ IH]; intros Ht.
  - exists []. split; [done|]. split; [constructor|].
    unfold nextToken in H. destruct (find (ToLower r) eor); [done|].
    by destruct r.
  - unfold nextToken, afterToken in *.
    destruct (find (ToLower r) eor) as [i|] eqn:F.
    + injection H as <-.
      destruct (IH (terminated_after _ _ Ht F)) as (markers & Hlen & Hm & Hr).
      pose proof (find_bound _ _ _ F) as Hb.
      rewrite ToLower_length in Hb. change (length eor) with 5%nat in Hb.
      apply find_Some in F as (_ & F & _). rewrite <- ToLower_drop in F.
      apply HasPrefix_spec in F as [rest Hrest].
      exists (take 5 (drop i r) :: markers). split; [simpl; by rewrite Hlen|].
      split.
      * constructor; [|done]. rewrite ToLower_take, Hrest. reflexivity.
      * simpl. rewrite <- Hr, <- app_assoc.
        rewrite <- (take_drop i r) at 1. f_equal.
        rewrite <- (take_drop 5 (drop i r)) at 1. f_equal.
        by rewrite drop_drop.
    + rewrite (terminated_none _ Ht F) in H. done.
Qed.

End Chops.

(** X9. On a well-formed stream the tokenizer loses nothing but the
    markers: the stream is the record strings it yields, in order, each
    followed by an end-of-record marker in some case. *)
Theorem tokenizer_round_trip (size max : Z) (r : list ascii) :
  0 <= size -> wellFormed max r ->
  exists tokens markers, tokensOf size max r = Ok tokens /\
    length markers = length tokens /\
    Forall (fun m => ToLower m = eor) markers /\
    r = concat (zip_with app tokens markers).
Proof.
  intros Hsize (_ & Hterm & Hfit).
  destruct (tokensOf_chops size max r Hsize Hfit) as (tokens & Ht & Hc).
  destruct (chops_rebuild r tokens Hc Hterm) as (markers & H1 & H2 & H3).
  by exists tokens, markers.
Qed.

Lemma tokenizer_round_trip_witness :
  let r := lit "<call:5>K1ABC <eor><call:6>JA1XYZ <EOR>" in
  exists tokens markers, tokensOf (64 * 1024) (50 * 1024 * 1024) r = Ok tokens /\
    length markers = length tokens /\
    Forall (fun m => ToLower m = eor) markers /\
    r = concat (zip_with app tokens markers).
Proof.
  intros r.
  refine (tokenizer_round_trip _ _ r _ _); [lia|].
  split; [reflexivity|]. split.
  - right. exists (lit "<call:5>K1ABC <eor><call:6>JA1XYZ "), (lit "<EOR>").
    split; reflexivity.
  - intros i Hi. exfalso.
    assert (Hl : (length r <= 100)%nat) by (subst r; simpl; lia). lia.
Defined.

Section TrailingSpace.
Implicit Types r ws : list ascii.

Lemma trim_left_allSpace ws : allSpace ws = true -> trim_left ws = [].
Proof.
  induction ws as [|c ws IH]; simpl; [done|].
  intros H. apply andb_true_iff in H as [-> H]. by apply IH.
Qed.

Lemma TrimSpace_allSpace ws : allSpace ws = true -> TrimSpace ws = [].
Proof. intros H. unfold TrimSpace. by rewrite (trim_left_allSpace ws H). Qed.

Lemma space_not_open (c : ascii) : is_space c = true -> lower_byte c <> "<"%char.
Proof. destruct c as [[] [] [] [] [] [] [] []]; vm_compute; congruence. Qed.

Lemma allSpace_markerfree ws :
  allSpace ws = true -> find (ToLower ws) eor = None.
Proof.
  intros H. destruct (find (ToLower ws) eor) as [i|] eqn:F; [|done]. exfalso.
  apply find_Some in F as (_ & F & _). apply HasPrefix_spec in F as [rest Hr].
  assert (Hin : "<"%char ∈ ToLower ws).
  { apply (subseteq_drop i). rewrite Hr. left. }
  unfold ToLower in Hin. apply list_elem_of_In, List.in_map_iff in Hin
    as (c & Hc & Hin).
  apply list_elem_of_In in Hin.
  unfold allSpace in H. rewrite forallb_forall in H.
  apply (space_not_open c); [|done]. apply H. by apply list_elem_of_In.
Qed.

Lemma chops_trailing r ws tokens :
  chops r tokens -> terminated r ->
  ws <> [] -> find (ToLower ws) eor = None ->
  chops (r ++ ws) (tokens ++ [ws]).
Proof.
  intros H. induction H as [r H|r token tokens H _ IH]; intros Ht Hne Hws.
  - assert (r = []) as ->.
    { unfold nextToken in H. destruct (find (ToLower r) eor); [done|].
      by destruct r. }
    simpl. apply chops_token.
    + unfold nextToken. rewrite Hws. by destruct ws.
    + apply chops_end. unfold afterToken. rewrite Hws. reflexivity.
  - unfold nextToken, afterToken in *.
    destruct (find (ToLower r) eor) as [i|] eqn:F.
    + injection H as <-.
      pose proof (find_bound _ _ _ F) as Hb.
      rewrite ToLower_length in Hb. change (length eor) with 5%nat in Hb.
      assert (F' : find (ToLower (r ++ ws)) eor = Some i).
      { rewrite ToLower_app. by apply find_app_l. }
      simpl. apply chops_token.
      * unfold nextToken. rewrite F'. by rewrite take_app_le by lia.
      * unfold afterToken. rewrite F'. rewrite drop_app_le by lia.
        apply IH; [by apply terminated_after | done | done].
    + rewrite (terminated_none _ Ht F) in H. done.
Qed.

Lemma foldTokens_app {A : Type} (body : A -> list ascii -> result A) acc l1 l2 :
  foldTokens body acc (l1 ++ l2) =
    let* acc := foldTokens body acc l1 in foldTokens body acc l2.
Proof.
  revert acc. induction l1 as [|t l1 IH]; intros acc; simpl; [done|].
  destruct (body acc t); simpl; done.
Qed.

Lemma ParseWith_trailing size max r ws :
  0 <= size -> terminated r -> allSpace ws = true -> fits max (r ++ ws) ->
  ParseWith size max (r ++ ws) = ParseWith size max r.
Proof.
  intros Hsize Ht Hws Hfit.
  destruct ws as [|c ws]; [by rewrite app_nil_r|].
  pose proof (fits_app_l _ _ _ Hfit) as Hfit'.
  destruct (tokensOf_chops size max r Hsize Hfit') as (tokens & _ & Hc).
  rewrite (ParseWith_chops size max r tokens) by done.
  rewrite (ParseWith_chops size max (r ++ c :: ws) (tokens ++ [c :: ws]));
    [|done|done|].
  - rewrite foldTokens_app.
    destruct (foldTokens recordOf [] tokens) as [records| | |]; simpl; try done.
    unfold recordOf. by rewrite TrimSpace_allSpace.
  - apply chops_trailing; [done | done | done | by apply allSpace_markerfree].
Qed.

End TrailingSpace.

(** X10. White space after the last marker of a stream (the line feed
    that ends a file) changes nothing in what [Parse] returns: the record
    string it makes is dropped by the test on the trimmed text.  For ASCII
    streams whose records fit in the buffer. *)
Theorem trailing_space_ignored (r ws : list ascii) :
  isASCII (r ++ ws) = true ->
  terminated r -> allSpace ws = true ->
  fits (50 * 1024 * 1024) (r ++ ws) ->
  Parse (r ++ ws) = Parse r.
Proof.
  intros _ Ht Hws Hfit. unfold Parse. by apply ParseWith_trailing.
Qed.

Lemma trailing_space_ignored_witness :
  Parse (lit "<call:5>K1ABC <mode:2>CW <eor>" ++ lit "
  ") = Parse (lit "<call:5>K1ABC <mode:2>CW <eor>").
Proof.
  refine (trailing_space_ignored (lit "<call:5>K1ABC <mode:2>CW <eor>") (lit "
  ") eq_refl _ eq_refl _).
  - right. exists (lit "<call:5>K1ABC <mode:2>CW "), (lit "<eor>").
    split; reflexivity.
  - intros i Hi. exfalso. simpl in Hi. lia.
Defined.

Section ParseRecords.

(** What holds of the accumulator at the start and is kept by the body
    holds of what the loop returns. *)
Lemma forScan_invariant {A : Type} (P : A -> Prop) split
    (body : A -> list ascii -> result A) :
  (forall acc token acc', P acc -> body acc token = Ok acc' -> P acc') ->
  forall fuel s acc out,
  P acc -> forScan split fuel body s acc = Ok out -> P out.
Proof.
  intros Hbody. induction fuel as [|fuel IH]; intros s acc out Hacc; simpl;
    [done|].
  destruct (Scan split s) as [[s' [token|]]| | |]; simpl; try done.
  - destruct (body acc token) as [acc'| | |] eqn:E; simpl; try done.
    apply IH. by apply (Hbody acc token).
  - by intros [= <-].
Qed.

Lemma recordOf_nonempty records token records' :
  Forall (fun rec : Record => rec <> ∅) records ->
  recordOf records token = Ok records' ->
  Forall (fun rec : Record => rec <> ∅) records'.
Proof.
  intros H. unfold recordOf. destruct (_ =? 0); [by intros [= <-]|].
  destruct (stripHeader _); simpl; try done.
  destruct (parseRecord _) as [rec| | |]; simpl; try done.
  destruct (Z.gtb_spec (Z.of_nat (size rec)) 0) as [Hs|Hs]; intros [= <-];
    [|done].
  apply Forall_app. split; [done|]. constructor; [|constructor].
  intros ->. rewrite map_size_empty in Hs. lia.
Qed.

End ParseRecords.

(** X11. [Parse] never returns an empty record: a record string in which
    no field is decoded (white space, a lone marker, text without a valid
    tag) gives no element of the result. *)
Theorem Parse_records_nonempty (r : list ascii) (records : list Record) :
  Parse r = Ok records -> Forall (fun rec : Record => rec <> ∅) records.
Proof.
  unfold Parse, ParseWith.
  apply (forScan_invariant (Forall (fun rec : Record => rec <> ∅)) splitEOR
           recordOf recordOf_nonempty); constructor.
Qed.

Lemma Parse_records_nonempty_witness :
  Forall (fun rec : Record => rec <> ∅) [<[lit "CALL" := lit "K1ABC"]> ∅].
Proof.
  refine (Parse_records_nonempty
            (lit "<eor> <eor><call:5>K1ABC<eor><comment><eor>") _ _).
  vm_compute. reflexivity.
Defined.

(** X12. A stream without a marker that is at least as long as the
    largest buffer (50 MiB) makes [Parse] fail with the scanner's
    [ErrTooLong], whatever the stream holds. *)
Theorem Parse_stream_too_large (r : list ascii) :
  countMarkers r = 0%nat -> 50 * 1024 * 1024 <= len r ->
  Parse r = Fail ErrTooLong.
Proof.
  intros H0 Hlong. unfold Parse. apply ParseWith_too_long; [lia | done | done].
Qed.

Lemma Parse_stream_too_large_witness :
  Parse (repeat "a"%char (Z.to_nat (50 * 1024 * 1024))) = Fail ErrTooLong.
Proof.
  refine (Parse_stream_too_large _ (countMarkers_repeat _) _).
  unfold len. rewrite repeat_length. lia.
Defined.

(** X13. On an ASCII stream [Parse] always ends, and in one of three
    ways: with records, with the error [ErrTooLong] of the scanner, or in
    the panic of the field decoder.  The two advance errors of the scanner
    do not occur. *)
Theorem Parse_outcomes (r : list ascii) :
  isASCII r = true ->
  (exists records, Parse r = Ok records) \/ Parse r = Fail ErrTooLong \/
  Parse r = Panic.
Proof. intros _. apply Parse_total. Qed.

Lemma Parse_outcomes_witness :
  (exists records, Parse (lit "<call:5>K1ABC<eor><call:-1>JA1") = Ok records) \/
  Parse (lit "<call:5>K1ABC<eor><call:-1>JA1") = Fail ErrTooLong \/
  Parse (lit "<call:5>K1ABC<eor><call:-1>JA1") = Panic.
Proof. exact (Parse_outcomes (lit "<call:5>K1ABC<eor><call:-1>JA1") eq_refl). Defined.

(** X14. On any ASCII stream whose records fit in the buffer, the
    tokenizer yields one record string for each marker, and one more when
    anything, be it a line feed, follows the last marker; no record string
    holds a marker. *)
Theorem record_strings_count (size max : Z) (r : list ascii) :
  0 <= size -> isASCII r = true -> fits max r ->
  exists tokens, tokensOf size max r = Ok tokens /\
    (terminated r /\ length tokens = countMarkers r \/
     ~ terminated r /\ length tokens = S (countMarkers r)) /\
    Forall (fun t => forall j, ~ occursAt eor t j) tokens.
Proof. intros Hsize _ Hfit. by apply tokenizer_count. Qed.

Lemma record_strings_count_witness :
  let r := lit "<call:5>K1ABC <eor><call:6>JA1XYZ" in
  exists tokens, tokensOf (64 * 1024) (50 * 1024 * 1024) r = Ok tokens /\
    (terminated r /\ length tokens = countMarkers r \/
     ~ terminated r /\ length tokens = S (countMarkers r)) /\
    Forall (fun t => forall j, ~ occursAt eor t j) tokens.
Proof.
  intros r. refine (record_strings_count _ _ r _ eq_refl _); [lia|].
  intros i Hi. exfalso.
  assert (Hl : (length r <= 100)%nat) by (subst r; simpl; lia). lia.
Defined.

(** ** The aggregator *)

Section Tally.
Context `{Countable K}.
Implicit Types keys : list K.
Implicit Types m : gmap K Z.

Lemma times_nil (k : K) : times k [] = 0.
Proof. reflexivity. Qed.

Lemma times_cons (k k' : K) keys :
  times k (k' :: keys) = (if decide (k' = k) then 1 else 0) + times k keys.
Proof.
  unfold times. rewrite filter_cons. destruct (decide (k' = k)); simpl; lia.
Qed.

Lemma times_nonneg (k : K) keys : 0 <= times k keys.
Proof. unfold times. lia. Qed.

Lemma times_zero (k : K) keys : times k keys = 0 <-> k ∉ keys.
Proof.
  induction keys as [|k' keys IH]; [split; [intros _; apply not_elem_of_nil|done]|].
  rewrite times_cons, not_elem_of_cons. pose proof (times_nonneg k keys).
  destruct (decide (k' = k)) as [->|Hne].
  - split; [lia | intros [? _]; done].
  - rewrite Z.add_0_l, IH. split; [intros ?; split; [congruence|done] | tauto].
Qed.

Lemma inc_lookup (k k' : K) m :
  inc k' m !! k = if decide (k' = k) then Some (default 0 (m !! k) + 1)
                  else m !! k.
Proof.
  unfold inc. destruct (decide (k' = k)) as [->|Hne].
  - by rewrite lookup_insert_eq.
  - by rewrite lookup_insert_ne.
Qed.

(** The count under a key after a tally: what it was, plus the number of
    times the key was counted; no entry for a key never counted. *)
Lemma tally_lookup keys m (k : K) :
  tally keys m !! k =
    if decide (times k keys = 0) then m !! k
    else Some (default 0 (m !! k) + times k keys).
Proof.
  revert m. induction keys as [|k' keys IH]; intros m; [done|].
  unfold tally in *. simpl. rewrite IH, inc_lookup, times_cons.
  pose proof (times_nonneg k keys).
  destruct (decide (k' = k)) as [->|Hne];
    repeat (destruct (decide _)); simpl; try lia; try done.
  - f_equal. lia.
  - f_equal. lia.
Qed.

End Tally.

Section Counts.
Implicit Types rec : Record.
Implicit Types records : list Record.



(** The four aggregators after the loop over the records. *)
Lemma recordLoop_tally records : forall a,
  recordLoop a records =
    Ok (mkAggregators
          (tally (bandMode <$> records) (aggQso a))
          (tally (bandMode <$> filter isConfirmed records) (aggQsl a))
          (list_to_set (omap entity records) ∪ dxccConfirmed a)
          (tally (omap dateKey records) (dateCounts a))).
Proof.
  induction records as [|rec records IH]; intros a.
  - simpl. destruct a. unfold tally. simpl. do 2 f_equal. set_solver.
  - simpl recordLoop. rewrite recordStep_spec. simpl bind. rewrite IH.
    cbn [aggQso aggQsl dxccConfirmed dateCounts]. f_equal. f_equal.
    + rewrite filter_cons.
      destruct (decide (isConfirmed rec)) as [Hc|Hc].
      * rewrite bool_decide_eq_true_2 by (by apply isConfirmed_spec). done.
      * rewrite bool_decide_eq_false_2; [done|].
        intros Hc'. by apply Hc, isConfirmed_spec.
    + simpl. destruct (entity rec); simpl; set_solver.
    + simpl. unfold dateKey at 2. destruct (dateBucket rec); done.
Qed.


End Counts.

Section Published.
Implicit Types rec : Record.
Implicit Types records : list Record.




Lemma tally_empty `{Countable K} (keys : list K) (k : K) :
  tally keys ∅ !! k = gaugeOf (times k keys).
Proof.
  rewrite tally_lookup, lookup_empty. unfold gaugeOf.
  destruct (decide (times k keys = 0)); [done|]. simpl. by f_equal.
Qed.

(** The collector after a successful cycle, in terms of counts. *)
Lemma publish_tally (c : Collector) (now : Z) records :
  publish c now records =
    Ok (mkCollector
          (tally (bandMode <$> records) ∅)
          (tally (bandMode <$> filter isConfirmed records) ∅)
          (Z.of_nat (size (list_to_set (omap entity records) ∪ ∅
                           : gset (list ascii))))
          (scrapeDuration c) 1 now
          (map_fold historyStep ∅ (tally (omap dateKey records) ∅))).
Proof. unfold publish. by rewrite recordLoop_tally. Qed.

Lemma history_separator (m : gmap (list ascii) Z) (d b : list ascii) (n : Z) :
  map_fold historyStep ∅ m !! (d, b) = Some n ->
  ("|"%char ∉ d) /\ ("|"%char ∉ b).
Proof.
  revert n.
  apply (map_fold_weak_ind
           (fun (r : gmap labels Z) (m : gmap (list ascii) Z) =>
              forall n, r !! (d, b) = Some n ->
                        ("|"%char ∉ d) /\ ("|"%char ∉ b))); [done|].
  intros i x m' r Hi IH n. unfold historyStep.
  destruct (Z.eqb_spec (Z.of_nat (length (Split i "|"))) 2) as [E|E]; [|apply IH].
  destruct (Split i "|") as [|p0 [|p1 [|p2 ps]]] eqn:S; simpl in E; try lia.
  apply Split_two in S as (-> & H0 & H1). unfold part. simpl nth.
  destruct (decide ((p0, p1) = (d, b))) as [[= <- <-]|Hne]; [done|].
  rewrite lookup_insert_ne by done. apply IH.
Qed.

End Published.






(** X19. No daily gauge is ever published for a date or a band that
    holds the separator [|]: a local key that splits into more than two
    parts is passed over, so that a record with such a band counts in the
    totals and in no daily gauge. *)
Theorem separator_never_published (c c' : Collector) (now : Z)
    (records : list Record) (d b : list ascii) (n : Z) :
  publish c now records = Ok c' ->
  qsoHistory c' !! (d, b) = Some n ->
  ("|"%char ∉ d) /\ ("|"%char ∉ b).
Proof.
  rewrite publish_tally. intros [= <-]. cbn [qsoHistory].
  apply history_separator.
Qed.

Lemma separator_never_published_witness :
  ("|"%char ∉ lit "2023-01-02") /\ ("|"%char ∉ lit "20M").
Proof.
  eapply (separator_never_published NewCollector _ 0
            [<[lit "QSO_DATE" := lit "20230102"]> (<[lit "BAND" := lit "20M"]> ∅);
             <[lit "QSO_DATE" := lit "20230102"]> (<[lit "BAND" := lit "2|M"]> ∅)]
            (lit "2023-01-02") (lit "20M") 1).
  - vm_compute. reflexivity.
  - vm_compute. reflexivity.
Defined.

(** ** A cycle and the background loop *)

Section Tagless.
Implicit Types body text : list ascii.

Lemma lower_open (c : ascii) : lower_byte c = "<"%char -> c = "<"%char.
Proof. destruct c as [[] [] [] [] [] [] [] []]; vm_compute; congruence. Qed.

Lemma no_open_find body (m : list ascii) (c0 : ascii) rest0 :
  m = "<"%char :: rest0 -> "<"%char ∉ body -> find (ToLower body) m = None.
Proof.
  intros -> H. destruct (find (ToLower body) _) as [i|] eqn:F; [|done]. exfalso.
  apply find_Some in F as (_ & F & _). apply HasPrefix_spec in F as [rest Hr].
  assert (Hin : "<"%char ∈ ToLower body).
  { apply (subseteq_drop i). rewrite Hr. left. }
  unfold ToLower in Hin. apply list_elem_of_In, List.in_map_iff in Hin
    as (c & Hc & Hin).
  apply lower_open in Hc as ->. by apply H, list_elem_of_In.
Qed.

Lemma trim_left_subseteq text (c : ascii) : c ∈ trim_left text -> c ∈ text.
Proof.
  induction text as [|x text IH]; simpl; [done|].
  destruct (is_space x); [|done]. intros H. right. by apply IH.
Qed.

Lemma TrimSpace_subseteq text (c : ascii) : c ∈ TrimSpace text -> c ∈ text.
Proof.
  unfold TrimSpace. intros H. apply list_elem_of_In, List.in_rev in H.
  apply list_elem_of_In, trim_left_subseteq in H.
  apply list_elem_of_In, List.in_rev in H.
  by apply trim_left_subseteq, list_elem_of_In.
Qed.

Lemma recordOf_no_open records token :
  "<"%char ∉ token -> recordOf records token = Ok records.
Proof.
  intros H. unfold recordOf. destruct (_ =? 0); [done|].
  assert (H' : "<"%char ∉ TrimSpace token).
  { intros Hin. by apply H, TrimSpace_subseteq. }
  unfold stripHeader.
  rewrite (Index_none _ _ (no_open_find _ (lit "<eoh>") "<"%char _ eq_refl H')).
  simpl bind. unfold parseRecord. rewrite parseFrom_unfold.
  rewrite tagStep_no_open by done. done.
Qed.

Lemma Parse_no_open body :
  "<"%char ∉ body -> len body < 50 * 1024 * 1024 -> Parse body = Ok [].
Proof.
  intros H Hlen. unfold Parse.
  assert (F : find (ToLower body) eor = None)
    by (by apply (no_open_find _ eor "<"%char _ eq_refl)).
  assert (Hfit : fits (50 * 1024 * 1024) body).
  { intros i Hi. unfold len in Hlen. lia. }
  assert (Hc : chops body (match body with [] => [] | _ => [body] end)).
  { destruct body as [|c body].
    - apply chops_end. reflexivity.
    - apply chops_token; [unfold nextToken; by rewrite F|].
      apply chops_end. unfold afterToken. rewrite F. reflexivity. }
  rewrite (ParseWith_chops (64 * 1024) _ _ _ ltac:(lia) Hfit Hc).
  destruct body as [|c body]; [done|]. simpl.
  by rewrite recordOf_no_open.
Qed.

End Tagless.

(** X20. A body without any [<] (a plain text answer, say an error
    message served with status 200) that is shorter than the buffer of the
    scanner decodes to no record, and the cycle counts as a success: it
    empties the three vectors, sets the entity count to 0 and the success
    gauge to 1, whatever was published before. *)
Theorem tagless_body_clears_gauges (c : Collector) (duration now : Z)
    (body : list ascii) :
  "<"%char ∉ body -> len body < 50 * 1024 * 1024 ->
  fetch c duration now (Body body) = Ok (mkCollector ∅ ∅ 0 duration 1 now ∅).
Proof.
  intros H Hlen. unfold fetch. rewrite Parse_no_open by done. reflexivity.
Qed.

Lemma tagless_body_clears_gauges_witness :
  fetch (mkCollector {[ (lit "20M", lit "CW") := 3 ]} ∅ 1 5 1 1700000000
           {[ (lit "2023-01-01", lit "20M") := 3 ]})
        2 1700003600 (Body (lit "Username/password incorrect"))
  = Ok (mkCollector ∅ ∅ 0 2 1 1700003600 ∅).
Proof.
  refine (tagless_body_clears_gauges _ 2 1700003600
            (lit "Username/password incorrect") _ _);
    [compute_done | vm_compute; reflexivity].
Defined.

Section Background.
Implicit Types c : Collector.
Implicit Types cycles fails : list cycle.


Lemma fetch_failing c duration now r :
  cycleFails r ->
  fetch c duration now r =
    Ok (mkCollector (qsoTotal c) (qslTotal c) (dxccCount c) duration 0
          (lastFetch c) (qsoHistory c)).
Proof.
  destruct r as [| |bodyBytes]; simpl; [done | done |].
  intros [e He]. by rewrite He.
Qed.

(** Cycles that all fail leave what is published as it is. *)
Lemma failing_cycles c fails :
  Forall (fun cy => cycleFails (answer cy)) fails ->
  exists c', StartBackgroundFetch c fails = Ok c' /\
    qsoTotal c' = qsoTotal c /\ qslTotal c' = qslTotal c /\
    dxccCount c' = dxccCount c /\ qsoHistory c' = qsoHistory c /\
    lastFetch c' = lastFetch c /\
    scrapeSuccess c' = match fails with [] => scrapeSuccess c | _ => 0 end.
Proof.
  intros H. revert c. induction H as [|cy fails Hcy _ IH]; intros c; simpl.
  - by exists c.
  - rewrite (fetch_failing _ _ _ _ Hcy). simpl bind.
    destruct (IH (mkCollector (qsoTotal c) (qslTotal c) (dxccCount c) (took cy) 0
                    (lastFetch c) (qsoHistory c)))
      as (c' & -> & H1 & H2 & H3 & H4 & H5 & H6).
    exists c'. split; [done|]. simpl in *.
    repeat (split; [done|]). rewrite H6. by destruct fails.
Qed.

End Background.



(** X22. Until a first cycle succeeds nothing is published: after cycles
    that all fail, a fresh collector still has no gauge in its three
    vectors, an entity count of 0 and a last-fetch time of 0. *)
Theorem nothing_published_before_first_success (fails : list cycle) :
  Forall (fun cy => cycleFails (answer cy)) fails ->
  exists c', StartBackgroundFetch NewCollector fails = Ok c' /\
    qsoTotal c' = ∅ /\ qslTotal c' = ∅ /\ dxccCount c' = 0 /\
    qsoHistory c' = ∅ /\ lastFetch c' = 0 /\ scrapeSuccess c' = 0.
Proof.
  intros H. destruct (failing_cycles NewCollector fails H)
    as (c' & H0 & H1 & H2 & H3 & H4 & H5 & H6).
  exists c'. repeat (split; [done|]). rewrite H6. by destruct fails.
Qed.

Lemma nothing_published_before_first_success_witness :
  exists c', StartBackgroundFetch NewCollector
               [mkCycle 60 100 FetchError; mkCycle 1 200 ReadError] = Ok c' /\
    qsoTotal c' = ∅ /\ qslTotal c' = ∅ /\ dxccCount c' = 0 /\
    qsoHistory c' = ∅ /\ lastFetch c' = 0 /\ scrapeSuccess c' = 0.
Proof.
  refine (nothing_published_before_first_success _ _). repeat constructor.
Defined.

(** ** Texts on which the decoder cannot panic *)

Section Plain.
Implicit Types s a b p : list ascii.

Lemma leadingDigits_app_le p b : (leadingDigits p <= leadingDigits (p ++ b))%nat.
Proof.
  induction p as [|c p IH]; simpl; [lia|]. destruct (digit c); lia.
Qed.

Lemma leadingDigits_le_run s : (leadingDigits s <= digitRun s)%nat.
Proof. destruct s; simpl; [lia|]. apply Nat.le_max_l. Qed.

Lemma digitRun_app_r a b : (digitRun b <= digitRun (a ++ b))%nat.
Proof. induction a as [|c a IH]; simpl; lia. Qed.

Lemma digitRun_app_l p b : (digitRun p <= digitRun (p ++ b))%nat.
Proof.
  induction p as [|c p IH]; [simpl; lia|].
  change ((c :: p) ++ b) with (c :: (p ++ b)).
  cbn [digitRun]. pose proof (leadingDigits_app_le (c :: p) b) as H.
  change ((c :: p) ++ b) with (c :: (p ++ b)) in H. lia.
Qed.

Lemma plain_nil : plain [].
Proof. split; [by apply not_elem_of_nil|]. split; [simpl; lia | by vm_compute]. Qed.

Lemma plain_app_r a b : plain (a ++ b) -> plain b.
Proof.
  intros (H1 & H2 & H3). split; [|split].
  - intros Hin. apply H1, elem_of_app. by right.
  - pose proof (digitRun_app_r a b). lia.
  - unfold len in *. rewrite length_app in H3. lia.
Qed.

Lemma plain_app_l a b : plain (a ++ b) -> plain a.
Proof.
  intros (H1 & H2 & H3). split; [|split].
  - intros Hin. apply H1, elem_of_app. by left.
  - pose proof (digitRun_app_l a b). lia.
  - unfold len in *. rewrite length_app in H3. lia.
Qed.

Lemma plain_sub a p b : plain (a ++ p ++ b) -> plain p.
Proof. intros H. by apply plain_app_r, plain_app_l in H. Qed.

Lemma plain_take n s : plain s -> plain (take n s).
Proof. intros H. rewrite <- (take_drop n s) in H. by apply plain_app_l in H. Qed.

Lemma plain_drop n s : plain s -> plain (drop n s).
Proof. intros H. rewrite <- (take_drop n s) in H. by apply plain_app_r in H. Qed.

Lemma digit_range (c : ascii) d : digit c = Some d -> 0 <= d <= 9.
Proof.
  unfold digit.
  destruct (Nat.leb_spec 48 (nat_of_ascii c)); simpl; [|done].
  destruct (Nat.leb_spec (nat_of_ascii c) 57); simpl; [|done].
  intros [= <-]. lia.
Qed.

Lemma digits_bound s : forall acc u,
  digits acc s = Some u -> 0 <= acc ->
  leadingDigits s = length s /\
  acc * 10 ^ Z.of_nat (length s) <= u < (acc + 1) * 10 ^ Z.of_nat (length s).
Proof.
  induction s as [|c s IH]; intros acc u; simpl digits.
  - intros [= <-] Hacc. split; [done|]. simpl. lia.
  - destruct (digit c) as [d|] eqn:D; [|done]. intros Hu Hacc.
    pose proof (digit_range _ _ D) as Hd.
    destruct (IH _ _ Hu ltac:(lia)) as (Hl & Hlo & Hhi).
    split; [simpl; rewrite D; by f_equal|].
    cbn [length]. rewrite Nat2Z.inj_succ, Z.pow_succ_r by lia.
    assert (0 < 10 ^ Z.of_nat (length s)) by (apply Z.pow_pos_nonneg; lia).
    nia.
Qed.

(** The lengths a plain text can declare are between 0 and [10^18]. *)
Lemma Atoi_plain s n : Atoi s = Some n -> plain s -> 0 <= n < 10 ^ 18.
Proof.
  intros Ha (Hm & Hrun & _). unfold Atoi in Ha.
  assert (Hds : forall ds, (leadingDigits ds <= 18)%nat ->
    match ds with
    | [] => None
    | _ => match digits 0 ds with
           | None => None
           | Some u => if (minInt <=? u) && (u <=? maxInt) then Some u else None
           end
    end = Some n -> 0 <= n < 10 ^ 18).
  { intros ds Hle H. destruct ds as [|d ds]; [done|].
    destruct (digits 0 (d :: ds)) as [u|] eqn:D; [|done].
    destruct (digits_bound _ _ _ D ltac:(lia)) as (Hl & Hlo & Hhi).
    destruct (_ && _); [|done]. injection H as <-.
    rewrite Hl in Hle.
    assert (10 ^ Z.of_nat (length (d :: ds)) <= 10 ^ 18)
      by (apply Z.pow_le_mono_r; lia).
    assert (0 < 10 ^ Z.of_nat (length (d :: ds)))
      by (apply Z.pow_pos_nonneg; lia).
    lia. }
  destruct s as [|c r]; [done|].
  destruct (byte_eqb c "+") eqn:Eplus.
  - apply (Hds r); [|done].
    pose proof (leadingDigits_le_run r). simpl in Hrun. lia.
  - destruct (byte_eqb c "-") eqn:Eminus.
    + apply byte_eqb_eq in Eminus as ->. exfalso. apply Hm. left.
    + apply (Hds (c :: r)); [|done].
      pose proof (leadingDigits_le_run (c :: r)). lia.
Qed.

(** The second segment of a tag is a part of its content. *)
Lemma part1_sub content :
  (2 <= length (Split content ":"))%nat ->
  exists a b, content = a ++ part (Split content ":") 1 ++ b.
Proof.
  intros Hp. destruct (decide (":"%char ∈ content)) as [Hin|Hout].
  2:{ rewrite Split_single in Hp by done. simpl in Hp. lia. }
  apply list_elem_of_split_l in Hin as (p0 & l2 & -> & H0).
  rewrite Split_cons_sep by done. unfold part. cbn [nth].
  destruct (decide (":"%char ∈ l2)) as [Hin|Hout].
  - apply list_elem_of_split_l in Hin as (p1 & l3 & -> & H1).
    rewrite Split_cons_sep by done.
    exists (p0 ++ [":"%char]), (":"%char :: l3). cbn [nth].
    by rewrite <- app_assoc.
  - rewrite Split_single by done. exists (p0 ++ [":"%char]), []. cbn [nth].
    by rewrite app_nil_r, <- app_assoc.
Qed.

Lemma plain_tag pre content rest :
  plain (tag pre content rest) -> plain content /\ plain rest.
Proof.
  unfold tag. intros H. apply plain_app_r in H.
  apply (plain_app_r ["<"%char]) in H. split.
  - by apply plain_app_l in H.
  - apply plain_app_r in H. by apply (plain_app_r [">"%char]) in H.
Qed.

(** A plain text is a sequence of tags without data and of valid tags. *)
Lemma plain_fields input : plain input -> exists fs, fields input fs.
Proof.
  remember (length input) as k eqn:Hk. revert input Hk.
  induction k as [k IH] using lt_wf_ind. intros input -> Hplain.
  destruct (input_shape input) as [H|[(pre & tl & -> & H1 & H2)
                                   |(pre & content & rest & -> & H1 & H2)]].
  - exists []. apply fields_end. by left.
  - exists []. apply fields_end. right. by exists pre, tl.
  - destruct (plain_tag _ _ _ Hplain) as [Hc Hr].
    assert (Hshort : (length rest < length (tag pre content rest))%nat).
    { unfold tag. rewrite length_app. simpl. rewrite length_app. simpl. lia. }
    destruct (le_lt_dec 2 (length (Split content ":"))) as [Hp|Hp].
    2:{ destruct (IH _ Hshort rest eq_refl Hr) as [fs Hfs].
        exists fs. apply fields_skip; [done | done | by left | done]. }
    destruct (Atoi (part (Split content ":") 1)) as [n|] eqn:Ha.
    2:{ destruct (IH _ Hshort rest eq_refl Hr) as [fs Hfs].
        exists fs. apply fields_skip; [done | done | by right | done]. }
    destruct (part1_sub content Hp) as (a & b & Hsub).
    assert (Hn : 0 <= n < 10 ^ 18).
    { apply (Atoi_plain _ _ Ha). apply (plain_sub a _ b). by rewrite <- Hsub. }
    destruct (IH (length (drop (Z.to_nat n) rest))
                ltac:(rewrite length_drop; lia) _ eq_refl
                (plain_drop _ _ Hr)) as [fs Hfs].
    eexists. apply (fields_tag pre content rest n); try done; [lia|].
    destruct Hplain as (_ & _ & Hlen). unfold tag, len in *.
    rewrite length_app in Hlen. simpl in Hlen. rewrite length_app in Hlen.
    simpl in Hlen. unfold maxInt.
    assert (10 ^ 18 + 2 ^ 62 <= 2 ^ 63 - 1) by (by vm_compute). lia.
Qed.

Lemma parseRecord_plain text :
  plain text -> exists fs, fields text fs /\ parseRecord text = Ok (store ∅ fs).
Proof.
  intros H. destruct (plain_fields text H) as [fs Hfs]. exists fs.
  split; [done|]. by apply parseFrom_fields.
Qed.

End Plain.

Section PlainStream.
Implicit Types s text token : list ascii.

Lemma trim_left_drop s : exists k, trim_left s = drop k s.
Proof.
  induction s as [|c s [k IH]]; simpl; [by exists O|].
  destruct (is_space c); [by exists (S k) | by exists O].
Qed.

(** The trimmed text is a part of the text. *)
Lemma TrimSpace_take_drop s : exists k m, TrimSpace s = take m (drop k s).
Proof.
  unfold TrimSpace. destruct (trim_left_drop s) as [k ->].
  destruct (trim_left_drop (rev (drop k s))) as [k' ->].
  exists k, (length (drop k s) - k')%nat.
  change (@drop ascii) with (@skipn ascii). rewrite List.skipn_rev.
  by rewrite rev_involutive.
Qed.

Lemma stripHeader_drop text : exists k, stripHeader text = Ok (drop k text).
Proof.
  unfold stripHeader. fold eoh.
  destruct (find (ToLower text) eoh) as [i|] eqn:F.
  - pose proof (find_bound _ _ _ F) as Hb.
    rewrite ToLower_length in Hb. change (length eoh) with 5%nat in Hb.
    rewrite (Index_find _ _ _ F).
    destruct (Z.geb_spec (Z.of_nat i) 0); [|lia].
    rewrite slice_from_ok by (unfold len; lia). by eexists.
  - rewrite (Index_none _ _ F). simpl. by exists O.
Qed.

Lemma recordOf_plain records token :
  plain token -> exists records', recordOf records token = Ok records'.
Proof.
  intros H. unfold recordOf. destruct (_ =? 0); [by eexists|].
  destruct (TrimSpace_take_drop token) as (k & m & ->).
  destruct (stripHeader_drop (take m (drop k token))) as [k' ->].
  simpl bind.
  destruct (parseRecord_plain (drop k' (take m (drop k token))))
    as (fs & _ & ->); [by apply plain_drop, plain_take, plain_drop|].
  simpl bind. destruct (_ >? 0); by eexists.
Qed.

Lemma nextToken_plain r token :
  plain r -> nextToken r = Some token -> plain token.
Proof.
  unfold nextToken. intros H. destruct (find _ _).
  - intros [= <-]. by apply plain_take.
  - destruct r; [done|]. by intros [= <-].
Qed.

Lemma afterToken_plain r : plain r -> plain (afterToken r).
Proof.
  unfold afterToken. intros H. destruct (find _ _); [by apply plain_drop|].
  apply plain_nil.
Qed.

(** On a plain stream the loop of [Parse] returns or fails with
    [ErrTooLong]. *)
Lemma forScan_plain : forall n (s : Scanner) acc fuel,
  (length (remaining s) <= n)%nat -> scannerInv s -> plain (remaining s) ->
  (length (remaining s) < fuel)%nat ->
  (exists a, forScan splitEOR fuel recordOf s acc = Ok a) \/
  forScan splitEOR fuel recordOf s acc = Fail ErrTooLong.
Proof.
  induction n as [n IH] using lt_wf_ind.
  intros s acc fuel Hn Hinv Hplain Hfuel.
  destruct fuel as [|fuel]; [lia|]. simpl forScan. unfold Scan.
  destruct (scanLoop_cases (2 + length (unread s)) s Hinv)
    as [(-> & _) | (s' & -> & HR & Hinv' & _)];
    [destruct (atEOF s); lia | by right |].
  simpl bind. cbn [fst snd].
  destruct (nextToken (remaining s)) as [token|] eqn:T; [|by left; eexists].
  pose proof (nextToken_plain _ _ Hplain T) as Htok.
  apply afterToken_shorter in T. rewrite <- HR in T.
  destruct (recordOf_plain acc token Htok) as [a ->].
  simpl bind. apply (IH (length (remaining s'))); try (done || lia).
  rewrite HR. by apply afterToken_plain.
Qed.

Lemma Parse_plain r :
  plain r -> (exists records, Parse r = Ok records) \/ Parse r = Fail ErrTooLong.
Proof.
  intros H. unfold Parse, ParseWith.
  apply (forScan_plain (length r)).
  - unfold remaining. simpl. lia.
  - split; [unfold len; simpl; lia | done].
  - done.
  - unfold remaining. simpl. lia.
Qed.

End PlainStream.

(** X23. The field decoder cannot panic on a text without a minus sign
    and without a number of more than 18 digits: whatever its tags, it
    returns a record. *)
Theorem decoder_safe_on_plain_text (text : list ascii) :
  plain text -> exists rec, parseRecord text = Ok rec.
Proof.
  intros H. destruct (parseRecord_plain text H) as (fs & _ & ->). by eexists.
Qed.

Lemma decoder_safe_on_plain_text_witness :
  exists rec,
    parseRecord (lit "<call:5>K1ABC <qso_date:8>20230102 <x:+2>ab") = Ok rec.
Proof.
  refine (decoder_safe_on_plain_text _ _).
  split; [compute_done|]. split; [vm_compute; lia | by vm_compute].
Defined.

(** X24. A cycle cannot panic on an ASCII body without a minus sign and
    without a number of more than 18 digits: [Parse] returns records or
    fails with [ErrTooLong], and the cycle ends normally either way. *)
Theorem cycle_safe_on_plain_body (c : Collector) (duration now : Z)
    (body : list ascii) :
  isASCII body = true -> plain body ->
  ((exists records, Parse body = Ok records) \/ Parse body = Fail ErrTooLong) /\
  exists c', fetch c duration now (Body body) = Ok c'.
Proof.
  intros _ H. pose proof (Parse_plain body H) as HP. split; [done|].
  unfold fetch. destruct HP as [[records ->] | ->].
  - rewrite publish_tally. by eexists.
  - by eexists.
Qed.

Lemma cycle_safe_on_plain_body_witness :
  ((exists records, Parse (lit "<call:5>K1ABC<eor><call:99>JA1<eor>") = Ok records)
   \/ Parse (lit "<call:5>K1ABC<eor><call:99>JA1<eor>") = Fail ErrTooLong) /\
  exists c', fetch NewCollector 2 1700000000
               (Body (lit "<call:5>K1ABC<eor><call:99>JA1<eor>")) = Ok c'.
Proof.
  refine (cycle_safe_on_plain_body NewCollector 2 1700000000
            (lit "<call:5>K1ABC<eor><call:99>JA1<eor>") eq_refl _).
  split; [compute_done|]. split; [vm_compute; lia | by vm_compute].
Defined.

(** ** What the published gauges do not depend on *)

Section Order.
Implicit Types records : list Record.

Lemma tally_perm `{Countable K} (l l' : list K) :
  l ≡ₚ l' -> tally l ∅ = tally l' ∅.
Proof.
  intros Hp. apply map_eq. intros k. rewrite !tally_empty. unfold times.
  by rewrite Hp.
Qed.

Lemma historyStep_comm (k1 k2 : list ascii) (v1 v2 : Z) (h : gmap labels Z) :
  k1 <> k2 ->
  historyStep k1 v1 (historyStep k2 v2 h) = historyStep k2 v2 (historyStep k1 v1 h).
Proof.
  intros Hne. unfold historyStep.
  destruct (Z.eqb_spec (Z.of_nat (length (Split k1 "|"))) 2) as [E1|E1]; [|done].
  destruct (Z.eqb_spec (Z.of_nat (length (Split k2 "|"))) 2) as [E2|E2]; [|done].
  destruct (Split k1 "|") as [|p0 [|p1 [|p2 ps]]] eqn:S1; simpl in E1; try lia.
  destruct (Split k2 "|") as [|q0 [|q1 [|q2 qs]]] eqn:S2; simpl in E2; try lia.
  apply Split_two in S1 as (-> & _ & _). apply Split_two in S2 as (-> & _ & _).
  unfold part. cbn [nth]. apply insert_insert_ne. intros [= -> ->]. by apply Hne.
Qed.

Lemma historyLoop_foldr (entries : list (list ascii * Z)) (h : gmap labels Z) :
  historyLoop entries h = foldr (uncurry historyStep) h (rev entries).
Proof.
  revert h. induction entries as [|[key count] entries IH]; intros h; [done|].
  simpl. by rewrite IH, foldr_snoc.
Qed.

Lemma historyLoop_map_fold (m : gmap (list ascii) Z)
    (entries : list (list ascii * Z)) :
  entries ≡ₚ map_to_list m ->
  historyLoop entries ∅ = map_fold historyStep ∅ m.
Proof.
  intros Hp. rewrite historyLoop_foldr, map_fold_foldr. symmetry.
  apply (foldr_permutation (=) (uncurry historyStep) ∅).
  - intros j1 [k1 v1] j2 [k2 v2] h Hj H1 H2. simpl.
    apply historyStep_comm. intros ->. apply Hj.
    apply (NoDup_lookup _ _ _ k2 (NoDup_fst_map_to_list m));
      rewrite list_lookup_fmap; [by rewrite H1 | by rewrite H2].
  - rewrite Hp. apply Permutation_rev.
Qed.

End Order.

(** X25. What a successful cycle publishes does not depend on the order
    of the records in the report: two lists of the same records in
    different orders give the same collector. *)
Theorem record_order_irrelevant (c : Collector) (now : Z)
    (records records' : list Record) :
  records ≡ₚ records' -> publish c now records = publish c now records'.
Proof.
  intros Hp. rewrite !publish_tally.
  rewrite (tally_perm (bandMode <$> records) (bandMode <$> records'))
    by (by rewrite Hp).
  rewrite (tally_perm (bandMode <$> filter isConfirmed records)
             (bandMode <$> filter isConfirmed records')) by (by rewrite Hp).
  rewrite (tally_perm (omap dateKey records) (omap dateKey records'))
    by (by rewrite Hp).
  do 3 f_equal. by rewrite Hp.
Qed.

Lemma record_order_irrelevant_witness :
  let r1 : Record := <[lit "BAND" := lit "20M"]> (<[lit "QSL_RCVD" := lit "Y"]> ∅) in
  let r2 : Record := <[lit "BAND" := lit "40M"]> (<[lit "DXCC" := lit "291"]> ∅) in
  publish NewCollector 0 [r1; r2] = publish NewCollector 0 [r2; r1].
Proof.
  intros r1 r2.
  exact (record_order_irrelevant NewCollector 0 [r1; r2] [r2; r1]
           (perm_swap r2 r1 [])).
Defined.

(** X26. The daily gauges do not depend on the order in which Go goes
    through the local map of counts: run over the entries of the map in
    any order, the loop that publishes them gives the same vector. *)
Theorem history_order_irrelevant (m : gmap (list ascii) Z)
    (entries : list (list ascii * Z)) :
  entries ≡ₚ map_to_list m ->
  historyLoop entries ∅ = map_fold historyStep ∅ m.
Proof. apply historyLoop_map_fold. Qed.

Lemma history_order_irrelevant_witness :
  let m : gmap (list ascii) Z :=
    <[lit "2023-01-02|20M" := 2]> (<[lit "2023-01-03|40M" := 1]>
      (<[lit "2023|01|04" := 5]> ∅)) in
  historyLoop (rev (map_to_list m)) ∅ = map_fold historyStep ∅ m.
Proof.
  intros m. refine (history_order_irrelevant m (rev (map_to_list m)) _).
  symmetry. apply Permutation_rev.
Defined.

(** ** Two reports, one after the other *)

Section Concat.
Implicit Types r : list ascii.

Lemma chops_app r1 r2 tokens1 tokens2 :
  chops r1 tokens1 -> terminated r1 -> chops r2 tokens2 ->
  chops (r1 ++ r2) (tokens1 ++ tokens2).
Proof.
  intros H. induction H as [r H|r token tokens H _ IH]; intros Ht H2.
  - assert (r = []) as ->.
    { unfold nextToken in H. destruct (find (ToLower r) eor); [done|].
      by destruct r. }
    done.
  - unfold nextToken, afterToken in *.
    destruct (find (ToLower r) eor) as [i|] eqn:F.
    + injection H as <-.
      pose proof (find_bound _ _ _ F) as Hb.
      rewrite ToLower_length in Hb. change (length eor) with 5%nat in Hb.
      assert (F' : find (ToLower (r ++ r2)) eor = Some i).
      { rewrite ToLower_app. by apply find_app_l. }
      simpl. apply chops_token.
      * unfold nextToken. rewrite F'. by rewrite take_app_le by lia.
      * unfold afterToken. rewrite F'. rewrite drop_app_le by lia.
        apply IH; [by apply terminated_after | done].
    + rewrite (terminated_none _ Ht F) in H. done.
Qed.

Lemma fits_app_r max r1 r2 : fits max (r1 ++ r2) -> fits max r2.
Proof.
  intros H. apply (fits_drop _ _ (length r1)) in H.
  by rewrite drop_app_length in H.
Qed.

Lemma recordOf_acc (a x : list Record) token :
  recordOf (a ++ x) token = let* y := recordOf x token in Ok (a ++ y).
Proof.
  unfold recordOf. destruct (_ =? 0); [done|].
  destruct (stripHeader _); simpl; try done.
  destruct (parseRecord _); simpl; try done.
  destruct (_ >? 0); simpl; [|done]. by rewrite app_assoc.
Qed.

Lemma foldTokens_recordOf_acc tokens : forall (a x : list Record),
  foldTokens recordOf (a ++ x) tokens =
    let* y := foldTokens recordOf x tokens in Ok (a ++ y).
Proof.
  induction tokens as [|token tokens IH]; intros a x; simpl; [done|].
  rewrite recordOf_acc. destruct (recordOf x token); simpl; done.
Qed.

Lemma ParseWith_concat size max r1 r2 :
  0 <= size -> terminated r1 -> fits max (r1 ++ r2) ->
  ParseWith size max (r1 ++ r2) =
    let* a := ParseWith size max r1 in
    let* b := ParseWith size max r2 in Ok (a ++ b).
Proof.
  intros Hsize Ht Hfit.
  pose proof (fits_app_l _ _ _ Hfit) as Hfit1.
  pose proof (fits_app_r _ _ _ Hfit) as Hfit2.
  destruct (tokensOf_chops size max r1 Hsize Hfit1) as (tokens1 & _ & Hc1).
  destruct (tokensOf_chops size max r2 Hsize Hfit2) as (tokens2 & _ & Hc2).
  rewrite (ParseWith_chops size max r1 tokens1) by done.
  rewrite (ParseWith_chops size max r2 tokens2) by done.
  rewrite (ParseWith_chops size max (r1 ++ r2) (tokens1 ++ tokens2));
    [|done|done|by apply chops_app].
  rewrite foldTokens_app.
  destruct (foldTokens recordOf [] tokens1) as [a| | |]; simpl; try done.
  rewrite <- (app_nil_r a) at 1. apply foldTokens_recordOf_acc.
Qed.

End Concat.

(** X27. Reports can be joined: when the first of two streams ends with
    a marker, [Parse] of the one followed by the other gives the records
    of the first followed by the records of the second (and panics when
    either does).  For ASCII streams whose records fit in the buffer. *)
Theorem Parse_concat (r1 r2 : list ascii) :
  isASCII (r1 ++ r2) = true ->
  terminated r1 -> fits (50 * 1024 * 1024) (r1 ++ r2) ->
  Parse (r1 ++ r2) =
    let* a := Parse r1 in let* b := Parse r2 in Ok (a ++ b).
Proof.
  intros _ Ht Hfit. unfold Parse. by apply ParseWith_concat.
Qed.

Lemma Parse_concat_witness :
  Parse (lit "<call:5>K1ABC<eor>" ++ lit "hdr <eoh><call:4>W1AW<EOR> ") =
    let* a := Parse (lit "<call:5>K1ABC<eor>") in
    let* b := Parse (lit "hdr <eoh><call:4>W1AW<EOR> ") in Ok (a ++ b).
Proof.
  refine (Parse_concat (lit "<call:5>K1ABC<eor>")
            (lit "hdr <eoh><call:4>W1AW<EOR> ") eq_refl _ _).
  - right. exists (lit "<call:5>K1ABC"), (lit "<eor>"). split; reflexivity.
  - intros i Hi. exfalso. simpl in Hi. lia.
Defined.

(** ** The header of a report *)

Section HeaderText.
Implicit Types hdr m body t x y : list ascii.

Lemma lower_close (c : ascii) : lower_byte c = ">"%char -> c = ">"%char.
Proof. destruct c as [[] [] [] [] [] [] [] []]; vm_compute; congruence. Qed.

(** A marker in some case is [<], three letters and [>]. *)
Lemma marker_shape m :
  ToLower m = eoh -> exists mid, m = "<"%char :: mid ++ [">"%char].
Proof.
  destruct m as [|c1 [|c2 [|c3 [|c4 [|c5 [|c6 m]]]]]]; try discriminate.
  unfold ToLower. simpl. intros [= H1 _ _ _ H5].
  apply lower_open in H1 as ->. apply lower_close in H5 as ->.
  by exists [c2; c3; c4].
Qed.

(** A marker cannot begin in front of a [<] and end behind it. *)
Lemma HasPrefix_open_tail x y (mk : list ascii) :
  "<"%char ∉ mk -> x <> [] ->
  HasPrefix x ("<"%char :: mk) = false ->
  HasPrefix (x ++ "<"%char :: y) ("<"%char :: mk) = false.
Proof.
  intros Hmk Hx H.
  destruct (le_lt_dec (length ("<"%char :: mk)) (length x)) as [Hl|Hl].
  { by apply HasPrefix_app_false. }
  destruct (HasPrefix (x ++ _) _) eqn:E; [|done]. exfalso.
  apply HasPrefix_spec in E as [r Hr].
  destruct x as [|c x]; [done|]. simpl in Hl. injection Hr as -> Hr.
  apply Hmk. apply (list_elem_of_lookup_2 _ (length x)).
  rewrite <- (lookup_app_l mk r) by lia. rewrite <- Hr.
  by rewrite list_lookup_middle.
Qed.

Lemma find_shift (a s mk : list ascii) i :
  (forall j, (j < length a)%nat -> HasPrefix (drop j (a ++ s)) mk = false) ->
  find s mk = Some i -> find (a ++ s) mk = Some (length a + i)%nat.
Proof.
  intros Ha F. apply find_Some in F as (F1 & F2 & F3). apply find_intro.
  - by rewrite drop_app_add.
  - rewrite length_app. lia.
  - intros j Hj. destruct (le_lt_dec (length a) j) as [Hge|Hlt]; [|by apply Ha].
    replace j with (length a + (j - length a))%nat by lia.
    rewrite drop_app_add. apply F3. lia.
Qed.

Lemma find_shift_None (a s mk : list ascii) :
  (forall j, (j < length a)%nat -> HasPrefix (drop j (a ++ s)) mk = false) ->
  find s mk = None -> find (a ++ s) mk = None.
Proof.
  intros Ha F. destruct (find (a ++ s) mk) as [k|] eqn:E; [|done]. exfalso.
  apply find_Some in E as (_ & E & _).
  destruct (le_lt_dec (length a) k) as [Hge|Hlt].
  - replace k with (length a + (k - length a))%nat in E by lia.
    rewrite drop_app_add in E. by rewrite (find_None _ _ _ F) in E.
  - by rewrite Ha in E.
Qed.

(** A header without a marker, in front of a [<], holds no beginning of
    that marker either. *)
Lemma header_no_marker hdr (mk rest : list ascii) :
  "<"%char ∉ mk ->
  (forall j, ~ occursAt ("<"%char :: mk) hdr j) ->
  forall j, (j < length (ToLower hdr))%nat ->
    HasPrefix (drop j (ToLower hdr ++ "<"%char :: rest)) ("<"%char :: mk) = false.
Proof.
  intros Hmk Hno j Hj. rewrite drop_app_le by lia.
  apply HasPrefix_open_tail; [done | |].
  - intros E. apply (f_equal length) in E. rewrite length_drop in E.
    simpl in E. lia.
  - specialize (Hno j). unfold occursAt in Hno. rewrite ToLower_drop in Hno.
    by destruct (HasPrefix _ _).
Qed.

Lemma trim_left_app_nonspace a (c : ascii) x :
  is_space c = false -> trim_left (a ++ c :: x) = trim_left a ++ c :: x.
Proof.
  intros Hc. induction a as [|y a IH]; simpl; [by rewrite Hc|].
  destruct (is_space y); [apply IH | done].
Qed.

Lemma TrimSpace_around a (c1 c2 : ascii) x t :
  is_space c1 = false -> is_space c2 = false ->
  TrimSpace (a ++ c1 :: x ++ c2 :: t) =
    trim_left a ++ c1 :: x ++ c2 :: rev (trim_left (rev t)).
Proof.
  intros H1 H2. unfold TrimSpace. rewrite trim_left_app_nonspace by done.
  replace (trim_left a ++ c1 :: x ++ c2 :: t)
    with ((trim_left a ++ c1 :: x) ++ c2 :: t)
    by (by rewrite <- app_assoc).
  rewrite rev_app_distr. simpl rev at 1. rewrite <- app_assoc. simpl app at 2.
  rewrite trim_left_app_nonspace by done.
  rewrite rev_app_distr. simpl rev at 1. rewrite rev_involutive.
  by rewrite <- !app_assoc.
Qed.

(** The body of the loop of [Parse] on a record string with a header:
    what stands in front of the marker plays no part. *)
Lemma recordOf_header (records : list Record) hdr m t :
  ToLower m = eoh -> (forall j, ~ occursAt eoh hdr j) ->
  recordOf records (hdr ++ m ++ t) = recordOf records (m ++ t).
Proof.
  intros Hm Hno. destruct (marker_shape m Hm) as [mid ->].
  assert (Hboth : forall a, (forall j, ~ occursAt eoh a j) ->
    recordOf records (a ++ ("<"%char :: mid ++ [">"%char]) ++ t) =
      let* rec := parseRecord (rev (trim_left (rev t))) in
      if Z.of_nat (size rec) >? 0 then Ok (records ++ [rec]) else Ok records).
  { intros a Ha. unfold recordOf.
    replace (a ++ ("<"%char :: mid ++ [">"%char]) ++ t)
      with (a ++ "<"%char :: mid ++ ">"%char :: t)
      by (simpl; by rewrite <- app_assoc).
    rewrite TrimSpace_around by done.
    destruct (Z.eqb_spec (len (trim_left a ++ "<"%char :: mid ++
                ">"%char :: rev (trim_left (rev t)))) 0) as [E|_].
    { unfold len in E. rewrite length_app in E. simpl in E. lia. }
    rewrite (stripHeader_at _ (trim_left a) ("<"%char :: mid ++ [">"%char])
               (rev (trim_left (rev t)))); [done | | done |].
    - simpl. by rewrite <- app_assoc.
    - intros j Hj. unfold occursAt. rewrite ToLower_drop, ToLower_app.
      change (ToLower ("<"%char :: mid ++ ">"%char :: rev (trim_left (rev t))))
        with ("<"%char :: ToLower (mid ++ ">"%char :: rev (trim_left (rev t)))).
      rewrite (header_no_marker (trim_left a) (lit "eoh>")); [done | | |].
      + compute_done.
      + destruct (trim_left_drop a) as [k ->]. intros i Hi.
        apply (Ha (k + i)%nat). unfold occursAt in *. by rewrite <- drop_drop.
      + by rewrite ToLower_length. }
  rewrite (Hboth hdr Hno).
  rewrite <- (Hboth [] ltac:(intros j H; unfold occursAt in H;
                              rewrite drop_nil in H; discriminate H)).
  done.
Qed.

(** The record strings of a stream with a header are those of the stream
    from its marker on, the header in front of the first. *)
Lemma chops_header hdr m body tokens :
  ToLower m = eoh -> (forall j, ~ occursAt eor hdr j) ->
  chops (m ++ body) tokens ->
  exists t tokens', tokens = (m ++ t) :: tokens' /\
    chops (hdr ++ m ++ body) ((hdr ++ m ++ t) :: tokens').
Proof.
  intros Hm Hno Hc.
  assert (Hlen : length m = 5%nat).
  { rewrite <- (ToLower_length m), Hm. done. }
  assert (Hhdr : forall j, (j < length (ToLower hdr))%nat ->
            HasPrefix (drop j (ToLower hdr ++ ToLower (m ++ body))) eor = false).
  { intros j Hj. rewrite ToLower_app, Hm.
    apply (header_no_marker hdr (lit "eor>")); [compute_done | done | done]. }
  inversion Hc as [r Hnext | r token tokens' Hnext Hrest]; subst.
  { exfalso. unfold nextToken in Hnext. destruct (find _ _); [done|].
    destruct m; [done|]. done. }
  unfold nextToken, afterToken in *.
  destruct (find (ToLower (m ++ body)) eor) as [i|] eqn:F.
  - injection Hnext as <-.
    assert (Hi : (5 <= i)%nat).
    { apply find_Some in F as (_ & F & _). rewrite ToLower_app, Hm in F.
      destruct i as [|[|[|[|[|i]]]]]; try discriminate F. lia. }
    exists (take (i - 5) body), tokens'. split.
    { f_equal. rewrite take_app_ge by lia. by rewrite Hlen. }
    pose proof (find_shift _ _ _ _ Hhdr F) as F'.
    rewrite <- ToLower_app, ToLower_length in F'.
    apply chops_token.
    + unfold nextToken. rewrite F'. f_equal.
      rewrite take_app_add. f_equal.
      rewrite take_app_ge by lia. by rewrite Hlen.
    + unfold afterToken. rewrite F'.
      replace (length hdr + i + 5)%nat with (length hdr + (i + 5))%nat by lia.
      by rewrite drop_app_add.
  - assert (token = m ++ body) as ->.
    { destruct (m ++ body); [done | by injection Hnext]. }
    exists body, tokens'. split; [done|].
    pose proof (find_shift_None _ _ _ Hhdr F) as F'.
    rewrite <- ToLower_app in F'.
    apply chops_token.
    + unfold nextToken. rewrite F'. destruct hdr; [|done].
      simpl. destruct m; [done | done].
    + unfold afterToken. by rewrite F'.
Qed.

Lemma ParseWith_header size max hdr m body :
  0 <= size -> ToLower m = eoh ->
  (forall j, ~ occursAt eor hdr j) -> (forall j, ~ occursAt eoh hdr j) ->
  fits max (hdr ++ m ++ body) ->
  ParseWith size max (hdr ++ m ++ body) = ParseWith size max (m ++ body).
Proof.
  intros Hsize Hm Hno1 Hno2 Hfit.
  pose proof (fits_app_r _ _ _ Hfit) as Hfit'.
  destruct (tokensOf_chops size max (m ++ body) Hsize Hfit')
    as (tokens & _ & Hc).
  destruct (chops_header hdr m body tokens Hm Hno1 Hc)
    as (t & tokens' & -> & Hc').
  rewrite (ParseWith_chops size max _ _ Hsize Hfit Hc').
  rewrite (ParseWith_chops size max _ _ Hsize Hfit' Hc).
  simpl. by rewrite recordOf_header.
Qed.

End HeaderText.

(** X28. The header of a report is ignored: whatever stands in front of
    the end-of-header marker, tags included, as long as it holds no
    marker of its own, [Parse] returns what it returns on the stream from
    the marker on.  For ASCII streams whose records fit in the buffer. *)
Theorem header_text_ignored (hdr m body : list ascii) :
  isASCII (hdr ++ m ++ body) = true ->
  ToLower m = eoh ->
  (forall j, ~ occursAt eor hdr j) -> (forall j, ~ occursAt eoh hdr j) ->
  fits (50 * 1024 * 1024) (hdr ++ m ++ body) ->
  Parse (hdr ++ m ++ body) = Parse (m ++ body).
Proof.
  intros _ Hm Hno1 Hno2 Hfit. unfold Parse. by apply ParseWith_header.
Qed.

Lemma no_occurrence (mk t : list ascii) :
  mk <> [] ->
  occurrences mk (ToLower t) = 0%nat -> forall j, ~ occursAt mk t j.
Proof.
  intros Hmk H j. unfold occursAt. rewrite ToLower_drop.
  destruct (decide (j < length (ToLower t))%nat) as [Hj|Hj].
  - rewrite (proj1 (occurrences_zero _ _) H j Hj). done.
  - rewrite drop_ge by lia. by destruct mk.
Qed.

Lemma header_text_ignored_witness :
  Parse (lit "ARRL Logbook <PROGRAMID:4>LoTW " ++ lit "<EOH>" ++
         lit " <call:5>K1ABC<eor>") =
  Parse (lit "<EOH>" ++ lit " <call:5>K1ABC<eor>").
Proof.
  refine (header_text_ignored (lit "ARRL Logbook <PROGRAMID:4>LoTW ")
            (lit "<EOH>") (lit " <call:5>K1ABC<eor>") eq_refl eq_refl _ _ _).
  - apply no_occurrence; [done | vm_compute; reflexivity].
  - apply no_occurrence; [done | vm_compute; reflexivity].
  - intros i Hi. exfalso. simpl in Hi. lia.
Defined.

(** ** The sum of the gauges *)

Section Total.
Context `{Countable K}.
Implicit Types m : gmap K Z.




End Total.

